(** * ginkgo watch: the scheduling loop of [watch_command.go]

    A shallow embedding of [SpecWatcher.WatchSpecs], [compileAndRun],
    [computeSuccinctMode] and [updateSeed].

    The watcher talks to collaborators that live in other packages (suite
    discovery, the delta tracker, the compiler and runner, the interrupt
    handler, the clock).  Each call to a collaborator is recorded as an
    [Event]; what a collaborator answers is given by a [World], whose
    oracles may depend on everything that happened before the call. *)

From Stdlib Require Import ZArith Lia.
From stdpp Require Import base list strings.

Local Open Scope Z_scope.

(** ** Data of the collaborating packages *)

(** [internal.TestSuite]: the fields this file reads, and the path that
    identifies a suite. *)
Record TestSuite := {
  Path : string;
  PackageName : string;
  CompilationError : option string;
  Passed : bool
}.

(** [watch.Suite] as the delta tracker hands it out: the wrapped
    [internal.TestSuite] and the text of its [Description()] method. *)
Record Suite := {
  Suite_Suite : TestSuite;
  Description : string
}.

(** [watch.Delta]; [ModifiedSuites] holds what the method
    [delta.ModifiedSuites()] returns. *)
Record Delta := {
  NewSuites : list Suite;
  ModifiedPackages : list string;
  ModifiedSuites : list Suite
}.

Record SuiteConfig := { RandomSeed : Z }.
Record ReporterConfig := { Succinct : bool; Verbose : bool }.
Record CLIConfig := { Depth : Z; WatchRegExp : string }.
(** The go flags are only passed along, never read here. *)
Record GoFlagsConfig := { GoFlags : list string }.
Record GinkgoFlagSet := { WasSet : string -> bool }.

(** [type SpecWatcher struct]; the interrupt handler is a pointer to a
    process-wide object and lives in the [World]. *)
Record SpecWatcher := {
  suiteConfig : SuiteConfig;
  reporterConfig : ReporterConfig;
  cliConfig : CLIConfig;
  goFlagsConfig : GoFlagsConfig;
  flags : GinkgoFlagSet
}.

Definition set_RandomSeed (seed : Z) (w : SpecWatcher) : SpecWatcher :=
  {| suiteConfig := {| RandomSeed := seed |};
     reporterConfig := reporterConfig w;
     cliConfig := cliConfig w;
     goFlagsConfig := goFlagsConfig w;
     flags := flags w |}.

Definition set_Succinct (b : bool) (w : SpecWatcher) : SpecWatcher :=
  {| suiteConfig := suiteConfig w;
     reporterConfig := {| Succinct := b; Verbose := Verbose (reporterConfig w) |};
     cliConfig := cliConfig w;
     goFlagsConfig := goFlagsConfig w;
     flags := flags w |}.

(** ** Events *)

(** An argument of a format string. *)
Inductive Arg :=
| AInt (n : Z)
| AStr (s : string).

(** What is written to standard output, with the format strings of the
    source kept as they are. *)
Inductive Output :=
| Printf (format : string) (args : list Arg)
| Println (s : string)
| Fprintln_F (format : string) (args : list Arg)
| Fprintln_Fi (indentation : Z) (format : string) (args : list Arg)
| Fprintln (s : string).

(** The two cases of the [select] in the loop. *)
Inductive SelectCase :=
| TickerC
| InterruptChannel.

Inductive Event :=
| EvFindSuites (args : list string) (cli : CLIConfig) (found : list TestSuite)
| EvNewDeltaTracker (maxDepth : Z) (watchRegExp : string)
| EvDelta (suites : list TestSuite) (delta : Delta) (errors : list (TestSuite * string))
| EvWillRun (suite : TestSuite)
| EvCompileSuite (suite : TestSuite) (compiled : TestSuite)
| EvRunCompiledSuite (suite : TestSuite) (sc : SuiteConfig) (rc : ReporterConfig)
    (additionalArgs : list string) (ran : TestSuite)
| EvCleanup (suite : TestSuite)
| EvWasInterrupted (answer : bool)
| EvNow (unix : Z)
| EvNewTicker (d : Z)
| EvSelect (c : SelectCase)
| EvFinalize (suites : list TestSuite) (messages : list string) (err : option string)
| EvOutput (o : Output).

(** The collaborators.  Every oracle receives the events so far (newest
    first), so an
    answer may depend on all earlier calls and answers (the tracker's
    state, the files on disk, a signal that arrived meanwhile).
    [DeltaTracker_Delta] returns the error map as the list of its entries
    in the order a [range] over it visits them. *)
Record World := {
  FindSuites : list Event -> list string -> CLIConfig -> list TestSuite;
  regexp_compiles : string -> bool;
  DeltaTracker_Delta : list Event -> list TestSuite -> Delta * list (TestSuite * string);
  CompileSuite : list Event -> TestSuite -> GoFlagsConfig -> TestSuite;
  RunCompiledSuite : list Event -> TestSuite -> SuiteConfig -> ReporterConfig ->
                     CLIConfig -> GoFlagsConfig -> list string -> TestSuite;
  WasInterrupted : list Event -> bool;
  Now_Unix : list Event -> Z;
  FinalizeProfilesAndReportsForSuites :
    list Event -> list TestSuite -> CLIConfig -> SuiteConfig -> ReporterConfig ->
    GoFlagsConfig -> list string * option string;
  PluralizedWord : string -> string -> Z -> string
}.

(** ** The monad of the watcher *)

(** How a piece of [WatchSpecs] can end other than by falling through:
    a [return] of [WatchSpecs] itself, an abort of the command, a panic. *)
Inductive Exit :=
| Return
| Abort (message : string) (err : option string)
| Panic (what : string).

Inductive Control (A : Type) :=
| Value (a : A)
| Stop (e : Exit).
Arguments Value {A} a.
Arguments Stop {A} e.

(** A computation reads and updates the watcher, sees the events so far
    (the history, newest event first) and yields the events it adds (in
    the order they happen). *)
Definition M (A : Type) : Type :=
  SpecWatcher -> list Event -> Control A * SpecWatcher * list Event.

Definition ret {A} (a : A) : M A := fun w _ => (Value a, w, []).

Definition bind {A B} (m : M A) (f : A -> M B) : M B := fun w h =>
  match m w h with
  | (Value a, w1, o1) =>
      match f a w1 (rev_append o1 h) with
      | (r, w2, o2) => (r, w2, o1 ++ o2)
      end
  | (Stop e, w1, o1) => (Stop e, w1, o1)
  end.

Definition stop {A} (e : Exit) : M A := fun w _ => (Stop e, w, []).
Definition emit (e : Event) : M unit := fun w _ => (Value tt, w, [e]).
Definition ask {A} (oracle : list Event -> A) : M A := fun w h => (Value (oracle h), w, []).
Definition getWatcher : M SpecWatcher := fun w _ => (Value w, w, []).
Definition modifyWatcher (f : SpecWatcher -> SpecWatcher) : M unit :=
  fun w _ => (Value tt, f w, []).

Declare Scope watch_scope.
Delimit Scope watch_scope with watch.
Notation "x <- m ;; k" := (bind m (fun x => k))
  (at level 100, m at next level, right associativity) : watch_scope.
Notation "m ;; k" := (bind m (fun _ => k))
  (at level 100, right associativity) : watch_scope.
Local Open Scope watch_scope.

Definition outcome {A} (m : M A) (w : SpecWatcher) (h : list Event) : Control A := (m w h).1.1.
Definition final {A} (m : M A) (w : SpecWatcher) (h : list Event) : SpecWatcher := (m w h).1.2.
Definition emitted {A} (m : M A) (w : SpecWatcher) (h : list Event) : list Event := (m w h).2.

(** [for _, x := range l { body x }] without [break] or accumulator. *)
Fixpoint range {A} (l : list A) (body : A -> M unit) : M unit :=
  match l with
  | [] => ret tt
  | x :: rest => body x ;; range rest body
  end.

(** [len] of a slice, as a Go [int]. *)
Definition len {A} (l : list A) : Z := Z.of_nat (length l).

Definition newline : string := String (Ascii.ascii_of_nat 10) EmptyString.
Definition time_Second : Z := 1000000000.

(** ** The watcher *)

Section Watcher.

Variable W : World.

(** *** Calls to the collaborators *)

Definition fmt_Printf (format : string) (args : list Arg) : M unit :=
  emit (EvOutput (Printf format args)).
Definition fmt_Println (s : string) : M unit :=
  emit (EvOutput (Println s)).
Definition fmt_Fprintln_F (format : string) (args : list Arg) : M unit :=
  emit (EvOutput (Fprintln_F format args)).
Definition fmt_Fprintln_Fi (indentation : Z) (format : string) (args : list Arg) : M unit :=
  emit (EvOutput (Fprintln_Fi indentation format args)).
Definition fmt_Fprintln (s : string) : M unit :=
  emit (EvOutput (Fprintln s)).

Definition internal_FindSuites (args : list string) (cli : CLIConfig) : M (list TestSuite) :=
  suites <- ask (fun h => FindSuites W h args cli) ;;
  emit (EvFindSuites args cli suites) ;;
  ret suites.

(** [NewDeltaTracker(depth, regexp.MustCompile(re))]: [MustCompile] panics
    on an expression that does not parse. *)
Definition NewDeltaTracker (maxDepth : Z) (watchRegExp : string) : M unit :=
  if regexp_compiles W watchRegExp
  then emit (EvNewDeltaTracker maxDepth watchRegExp)
  else stop (Panic watchRegExp).

Definition deltaTracker_Delta (suites : list TestSuite)
  : M (Delta * list (TestSuite * string)) :=
  r <- ask (fun h => DeltaTracker_Delta W h suites) ;;
  emit (EvDelta suites r.1 r.2) ;;
  ret r.

Definition deltaTracker_WillRun (suite : TestSuite) : M unit :=
  emit (EvWillRun suite).

Definition internal_CompileSuite (suite : TestSuite) (goFlags : GoFlagsConfig) : M TestSuite :=
  compiled <- ask (fun h => CompileSuite W h suite goFlags) ;;
  emit (EvCompileSuite suite compiled) ;;
  ret compiled.

Definition internal_RunCompiledSuite (suite : TestSuite) (sc : SuiteConfig)
    (rc : ReporterConfig) (cli : CLIConfig) (goFlags : GoFlagsConfig)
    (additionalArgs : list string) : M TestSuite :=
  ran <- ask (fun h => RunCompiledSuite W h suite sc rc cli goFlags additionalArgs) ;;
  emit (EvRunCompiledSuite suite sc rc additionalArgs ran) ;;
  ret ran.

Definition internal_Cleanup (goFlags : GoFlagsConfig) (suite : TestSuite) : M unit :=
  emit (EvCleanup suite).

Definition interruptHandler_WasInterrupted : M bool :=
  b <- ask (WasInterrupted W) ;;
  emit (EvWasInterrupted b) ;;
  ret b.

Definition time_Now_Unix : M Z :=
  t <- ask (Now_Unix W) ;;
  emit (EvNow t) ;;
  ret t.

Definition time_NewTicker (d : Z) : M unit := emit (EvNewTicker d).

Definition internal_FinalizeProfilesAndReportsForSuites (suites : list TestSuite)
    (cli : CLIConfig) (sc : SuiteConfig) (rc : ReporterConfig) (goFlags : GoFlagsConfig)
  : M (list string * option string) :=
  r <- ask (fun h => FinalizeProfilesAndReportsForSuites W h suites cli sc rc goFlags) ;;
  emit (EvFinalize suites r.1 r.2) ;;
  ret r.

(** Modelled from the spec: [command.AbortWith] and [command.AbortIfError]
    belong to the [command] package, which is not among the sources.  The
    spec (section 7) says the zero-suite condition "aborts before entering
    the loop" and is "escalated to the caller as a terminal failure": an
    abort ends [WatchSpecs] at once with the message. *)
Definition command_AbortWith {A} (message : string) : M A := stop (Abort message None).

Definition command_AbortIfError (preamble : string) (err : option string) : M unit :=
  match err with
  | Some e => stop (Abort preamble (Some e))
  | None => ret tt
  end.

(** *** [updateSeed] *)

Definition updateSeed : M unit :=
  w <- getWatcher ;;
  if negb (WasSet (flags w) "seed") then
    now <- time_Now_Unix ;;
    modifyWatcher (set_RandomSeed now)
  else ret tt.

(** *** [computeSuccinctMode] *)

Definition computeSuccinctMode (numSuites : Z) : M unit :=
  w <- getWatcher ;;
  if Verbose (reporterConfig w) then
    modifyWatcher (set_Succinct false)
  else if WasSet (flags w) "succinct" then
    ret tt
  else
    (if numSuites =? 1 then modifyWatcher (set_Succinct false) else ret tt) ;;
    (if 1 <? numSuites then modifyWatcher (set_Succinct true) else ret tt).

(** *** [compileAndRun] *)

Definition compileAndRun (suite : TestSuite) (additionalArgs : list string) : M bool :=
  w <- getWatcher ;;
  suite <- internal_CompileSuite suite (goFlagsConfig w) ;;
  match CompilationError suite with
  | Some err =>
      fmt_Println err ;;
      ret false
  | None =>
      interrupted <- interruptHandler_WasInterrupted ;;
      if interrupted then ret false
      else
        w <- getWatcher ;;
        suite <- internal_RunCompiledSuite suite (suiteConfig w) (reporterConfig w)
                   (cliConfig w) (goFlagsConfig w) additionalArgs ;;
        internal_Cleanup (goFlagsConfig w) suite ;;
        ret (Passed suite)
  end.

(** *** [WatchSpecs] *)

(** Lines 129-135: the loop over the run list, with its local [passed]. *)
Fixpoint runSuites (suites : list TestSuite) (additionalArgs : list string)
    (passed : bool) : M bool :=
  match suites with
  | [] => ret passed
  | suite :: rest =>
      interrupted <- interruptHandler_WasInterrupted ;;
      if interrupted then stop Return
      else
        deltaTracker_WillRun suite ;;
        ok <- compileAndRun suite additionalArgs ;;
        runSuites rest additionalArgs (ok && passed)
  end.

(** Lines 102-105 and 115-118: every suite of the group is appended to the
    run list and its description printed. *)
Fixpoint appendSuites (group : list Suite) (suites : list TestSuite) : M (list TestSuite) :=
  match group with
  | [] => ret suites
  | suite :: rest =>
      let suites := suites ++ [Suite_Suite suite] in
      fmt_Fprintln_Fi 1 "%s" [AStr (Description suite)] ;;
      appendSuites rest suites
  end.

(** Lines 94-120: discovery and classification of one tick; the result is
    the run list. *)
Definition collectSuites (args : list string) : M (list TestSuite) :=
  w <- getWatcher ;;
  suites <- internal_FindSuites args (cliConfig w) ;;
  r <- deltaTracker_Delta suites ;;
  let delta := r.1 in
  let suites := [] in
  suites <-
    (if 0 <? len (NewSuites delta) then
       fmt_Fprintln_F "{{green}}Detected %d new %s:{{/}}"
         [AInt (len (NewSuites delta));
          AStr (PluralizedWord W "suite" "suites" (len (NewSuites delta)))] ;;
       appendSuites (NewSuites delta) suites
     else ret suites) ;;
  let modifiedSuites := ModifiedSuites delta in
  if 0 <? len modifiedSuites then
    fmt_Fprintln_F "{{green}}Detected changes in:{{/}}" [] ;;
    range (ModifiedPackages delta) (fun pkg => fmt_Fprintln_Fi 1 "%s" [AStr pkg]) ;;
    fmt_Fprintln_F "{{green}}Will run %d %s:{{/}}"
      [AInt (len modifiedSuites);
       AStr (PluralizedWord W "suite" "suites" (len modifiedSuites))] ;;
    suites <- appendSuites modifiedSuites suites ;;
    fmt_Fprintln "" ;;
    ret suites
  else ret suites.

(** Lines 126-127: the two decisions taken before the run list is walked. *)
Definition decisions (numSuites : Z) : M unit :=
  updateSeed ;;
  computeSuccinctMode numSuites.

(** Lines 136-146: the closing message and the profiles and reports. *)
Definition finishCycle (suites : list TestSuite) (passed : bool) : M unit :=
  let color := if passed then "{{green}}" else "{{red}}" in
  fmt_Fprintln_F (color +:+ newline +:+ "Done.  Resuming watch...{{/}}") [] ;;
  w <- getWatcher ;;
  r <- internal_FinalizeProfilesAndReportsForSuites suites (cliConfig w) (suiteConfig w)
         (reporterConfig w) (goFlagsConfig w) ;;
  command_AbortIfError "could not finalize profiles:" r.2 ;;
  range r.1 fmt_Println.

(** Lines 126-146: one cycle over a non-empty run list. *)
Definition runCycle (suites : list TestSuite) (additionalArgs : list string) : M unit :=
  decisions (len suites) ;;
  passed <- runSuites suites additionalArgs true ;;
  finishCycle suites passed.

(** The body of [case <-ticker.C]; the [break] at line 123 leaves the
    [select] only, so the [for] goes on. *)
Definition onTick (args additionalArgs : list string) : M unit :=
  suites <- collectSuites args ;;
  if len suites =? 0 then ret tt
  else runCycle suites additionalArgs.

(** Lines 65-89: everything before the loop. *)
Definition startup (args additionalArgs : list string) : M unit :=
  w <- getWatcher ;;
  suites <- internal_FindSuites args (cliConfig w) ;;
  (if len suites =? 0 then command_AbortWith "Found no test suites" else ret tt) ;;
  fmt_Printf ("Identified %d test %s.  Locating dependencies to a depth of %d (this may take a while)..." +:+ newline)
    [AInt (len suites); AStr (PluralizedWord W "suite" "suites" (len suites));
     AInt (Depth (cliConfig w))] ;;
  NewDeltaTracker (Depth (cliConfig w)) (WatchRegExp (cliConfig w)) ;;
  r <- deltaTracker_Delta suites ;;
  let delta := r.1 in
  let errors := r.2 in
  fmt_Printf ("Watching %d %s:" +:+ newline)
    [AInt (len (NewSuites delta));
     AStr (PluralizedWord W "suite" "suites" (len (NewSuites delta)))] ;;
  range (NewSuites delta) (fun suite => fmt_Println ("  " +:+ Description suite)) ;;
  range errors (fun e =>
    fmt_Printf ("Failed to watch %s: %s" +:+ newline) [AStr (PackageName e.1); AStr e.2]) ;;
  (if len suites =? 1 then
     updateSeed ;;
     match suites !! 0%nat with
     | Some suite => _ <- compileAndRun suite additionalArgs ;; ret tt
     | None => stop (Panic "index out of range")
     end
   else ret tt) ;;
  time_NewTicker time_Second.

(** Lines 91-150: the [for { select { ... } }].  [cases] lists which case
    of the [select] fires at each iteration; when it is used up the loop
    is blocked in the [select], which is the result [Value tt]. *)
Fixpoint watchLoop (args additionalArgs : list string) (cases : list SelectCase) : M unit :=
  match cases with
  | [] => ret tt
  | c :: later =>
      emit (EvSelect c) ;;
      match c with
      | TickerC =>
          onTick args additionalArgs ;;
          watchLoop args additionalArgs later
      | InterruptChannel => stop Return
      end
  end.

Definition WatchSpecs (args additionalArgs : list string) (cases : list SelectCase) : M unit :=
  startup args additionalArgs ;;
  watchLoop args additionalArgs cases.

End Watcher.

(** ** The shape of what a cycle does *)

(** The events of one [compileAndRun] of [s] under the watcher [w], with
    the value it returns: the compile failed, the interrupt was seen after
    the compile, or the suite ran. *)
Inductive SuiteTrace (w : SpecWatcher) (args : list string) (s : TestSuite)
  : bool -> list Event -> Prop :=
| st_compile_error c e :
    CompilationError c = Some e ->
    SuiteTrace w args s false [EvCompileSuite s c; EvOutput (Println e)]
| st_interrupted c :
    CompilationError c = None ->
    SuiteTrace w args s false [EvCompileSuite s c; EvWasInterrupted true]
| st_ran c r :
    CompilationError c = None ->
    SuiteTrace w args s (Passed r)
      [EvCompileSuite s c; EvWasInterrupted false;
       EvRunCompiledSuite c (suiteConfig w) (reporterConfig w) args r;
       EvCleanup r].

(** The events of the loop over a run list that starts with [passed = p],
    and how the loop ends. *)
Inductive CycleTrace (w : SpecWatcher) (args : list string)
  : list TestSuite -> bool -> Control bool -> list Event -> Prop :=
| ct_done p :
    CycleTrace w args [] p (Value p) []
| ct_return s rest p :
    CycleTrace w args (s :: rest) p (Stop Return) [EvWasInterrupted true]
| ct_next s rest p ok o r out :
    SuiteTrace w args s ok o ->
    CycleTrace w args rest (ok && p) r out ->
    CycleTrace w args (s :: rest) p r
      (EvWasInterrupted false :: EvWillRun s :: o ++ out).

(** The last event of a [compileAndRun]: the compile error is printed
    (line 156), the interrupt is seen (line 159) or the suite is cleaned up
    after its run (line 163). *)
Definition completes (e : Event) : Prop :=
  match e with
  | EvOutput (Println _) => True
  | EvWasInterrupted true => True
  | EvCleanup _ => True
  | _ => False
  end.

(** The suites whose compile-and-run was started, in the order of the
    events. *)
Fixpoint attempted (out : list Event) : list TestSuite :=
  match out with
  | [] => []
  | EvCompileSuite s _ :: rest => s :: attempted rest
  | _ :: rest => attempted rest
  end.

(** A line written to the coloured stream with [fmt.Fprintln]. *)
Definition isFprintln (e : Event) : Prop :=
  match e with
  | EvOutput (Fprintln_F _ _) | EvOutput (Fprintln_Fi _ _ _) | EvOutput (Fprintln _) => True
  | _ => False
  end.

Definition isNow (e : Event) : bool :=
  match e with EvNow _ => true | _ => false end.

Definition isPrintf (e : Event) : bool :=
  match e with EvOutput (Printf _ _) => true | _ => false end.

Definition startsWork (e : Event) : bool :=
  match e with
  | EvWillRun _ | EvCompileSuite _ _ | EvRunCompiledSuite _ _ _ _ _ => true
  | _ => false
  end.

(** What [WatchSpecs] emits from the first discovery to the list of
    tracker errors (lines 65-82), when suites were found and the regular
    expression compiles. *)
Definition introduction (W : World) (args : list string) (w : SpecWatcher)
    (h : list Event) : list Event :=
  let found := FindSuites W h args (cliConfig w) in
  let e1 := EvFindSuites args (cliConfig w) found in
  let e2 := EvOutput (Printf
    ("Identified %d test %s.  Locating dependencies to a depth of %d (this may take a while)..."
       +:+ newline)
    [AInt (len found); AStr (PluralizedWord W "suite" "suites" (len found));
     AInt (Depth (cliConfig w))]) in
  let e3 := EvNewDeltaTracker (Depth (cliConfig w)) (WatchRegExp (cliConfig w)) in
  let r := DeltaTracker_Delta W (e3 :: e2 :: e1 :: h) found in
  [e1; e2; e3; EvDelta found r.1 r.2;
   EvOutput (Printf ("Watching %d %s:" +:+ newline)
     [AInt (len (NewSuites r.1));
      AStr (PluralizedWord W "suite" "suites" (len (NewSuites r.1)))])] ++
  ((fun suite => EvOutput (Println ("  " +:+ Description suite))) <$> NewSuites r.1) ++
  ((fun e : TestSuite * string =>
      EvOutput (Printf ("Failed to watch %s: %s" +:+ newline)
                  [AStr (PackageName e.1); AStr e.2])) <$> r.2).


(** ** The claims as the specification words them, where the code differs *)

(** "mark-as-observed is invoked only after that suite's compile-and-run
    has completed": a mark of [s] has a compile of [s] before it. *)
Definition MarkedAfterRun (out : list Event) : Prop :=
  forall pre s post, out = pre ++ EvWillRun s :: post ->
    exists c, EvCompileSuite s c ∈ pre.





(** "the prior random seed is reused unless the caller explicitly pinned
    one": without a pinned seed every run of the cycle gets the seed the
    watcher had before the cycle. *)
Definition PriorSeedReused (prior : SpecWatcher) (out : list Event) : Prop :=
  WasSet (flags prior) "seed" = false ->
  forall s sc rc args r, EvRunCompiledSuite s sc rc args r ∈ out ->
    RandomSeed sc = RandomSeed (suiteConfig prior).

(** "the run list ... is the new suites followed by the modified suites,
    with each group preserving the order in which discovery returned its
    suites": the run list is two groups, each of which lists suites in the
    order in which [found] holds them. *)
Definition InDiscoveryOrder (found runList : list TestSuite) : Prop :=
  exists new modified,
    runList = new ++ modified /\ new `sublist_of` found /\ modified `sublist_of` found.

(** "unless the caller explicitly set the succinct option or verbose mode,
    in which case the explicit choice is respected": a succinct option
    that the caller set is still what the caller set after the decision. *)
Definition ExplicitSuccinctRespected (prior decided : SpecWatcher) : Prop :=
  WasSet (flags prior) "succinct" = true ->
  Succinct (reporterConfig decided) = Succinct (reporterConfig prior).

(** "an immediate compile-and-run before the first tick occurs if and only
    if exactly one suite was discovered": [out] is what happened before
    the loop. *)
Definition ImmediateRunIffSingle (found : list TestSuite) (out : list Event) : Prop :=
  (exists suite compiled, EvCompileSuite suite compiled ∈ out) <-> length found = 1%nat.

(** ** Concrete suites and worlds, used to run the model *)

Definition mkSuite (path : string) : TestSuite :=
  {| Path := path; PackageName := path; CompilationError := None; Passed := false |}.

Definition suiteA : TestSuite := mkSuite "a".
Definition suiteB : TestSuite := mkSuite "b".
Definition suiteC : TestSuite := mkSuite "c".

Definition watched (s : TestSuite) : Suite :=
  {| Suite_Suite := s; Description := Path s +:+ " [0 dependencies]" |}.

(** A world with fixed answers: discovery finds [found], the tracker
    answers [delta] and [errors], compiling the suites whose path is in
    [broken] fails, every run passes, the interrupt is seen from the
    [interruptAt]-th event on, the clock shows [now]. *)
Definition fixedWorld (found : list TestSuite) (delta : Delta)
    (errors : list (TestSuite * string)) (broken : list string)
    (interruptAt : nat) (now : Z) : World :=
  {| FindSuites := fun _ _ _ => found;
     regexp_compiles := fun _ => true;
     DeltaTracker_Delta := fun _ _ => (delta, errors);
     CompileSuite := fun _ s _ =>
       if bool_decide (Path s ∈ broken)
       then {| Path := Path s; PackageName := PackageName s;
               CompilationError := Some ("cannot compile " +:+ Path s); Passed := false |}
       else s;
     RunCompiledSuite := fun _ s _ _ _ _ _ =>
       {| Path := Path s; PackageName := PackageName s;
          CompilationError := None; Passed := true |};
     WasInterrupted := fun h => bool_decide (interruptAt ≤ length h)%nat;
     Now_Unix := fun _ => now;
     FinalizeProfilesAndReportsForSuites := fun _ _ _ _ _ _ => ([], None);
     PluralizedWord := fun singular plural count => if count =? 1 then singular else plural |}.

Definition watcher0 : SpecWatcher :=
  {| suiteConfig := {| RandomSeed := 7 |};
     reporterConfig := {| Succinct := false; Verbose := false |};
     cliConfig := {| Depth := 1; WatchRegExp := "\.go$" |};
     goFlagsConfig := {| GoFlags := [] |};
     flags := {| WasSet := fun _ => false |} |}.

Definition deltaAB : Delta :=
  {| NewSuites := [watched suiteA]; ModifiedPackages := ["b"]; ModifiedSuites := [watched suiteB] |}.


(** Discovery finds [a] and [b]; the tracker reports [a] as new and [b]
    as modified, and could not build the graph of [c]. *)
Definition trackerErrors : list (TestSuite * string) := [(suiteC, "no such package")].

(** Nothing fails and no interrupt arrives. *)
Definition calmWorld : World :=
  fixedWorld [suiteA; suiteB] deltaAB trackerErrors [] 1000 42.

(** The interrupt arrives after five events. *)
Definition interruptedWorld : World :=
  fixedWorld [suiteA; suiteB] deltaAB trackerErrors [] 5 42.

(** The interrupt arrives while [a] is being compiled. *)
Definition interruptedCompileWorld : World :=
  fixedWorld [suiteA; suiteB] deltaAB trackerErrors [] 3 42.

(** [a] does not compile. *)
Definition brokenWorld : World :=
  fixedWorld [suiteA; suiteB] deltaAB trackerErrors ["a"] 1000 42.

(** Discovery finds the single suite [a]. *)
Definition singleWorld : World :=
  fixedWorld [suiteA] {| NewSuites := [watched suiteA]; ModifiedPackages := [];
                         ModifiedSuites := [] |} trackerErrors [] 1000 42.

(** Discovery finds nothing. *)
Definition emptyWorld : World :=
  fixedWorld [] {| NewSuites := []; ModifiedPackages := []; ModifiedSuites := [] |}
    [] [] 1000 42.

(** The tracker reports no change, only the error of [c]. *)
Definition idleWorld : World :=
  fixedWorld [suiteA; suiteB]
    {| NewSuites := []; ModifiedPackages := []; ModifiedSuites := [] |}
    trackerErrors [] 1000 42.

(** Discovery finds [a], [b], [c]; the tracker lists them as modified in
    the order [c], [b], [a]. *)
Definition reversedWorld : World :=
  fixedWorld [suiteA; suiteB; suiteC]
    {| NewSuites := []; ModifiedPackages := ["a"];
       ModifiedSuites := [watched suiteC; watched suiteB; watched suiteA] |}
    [] [] 1000 42.

(** The watcher of a caller who asked for verbose output and set the
    succinct option as well. *)
Definition verboseSuccinctWatcher : SpecWatcher :=
  {| suiteConfig := {| RandomSeed := 7 |};
     reporterConfig := {| Succinct := true; Verbose := true |};
     cliConfig := {| Depth := 1; WatchRegExp := "\.go$" |};
     goFlagsConfig := {| GoFlags := [] |};
     flags := {| WasSet := fun name => String.eqb name "succinct" |} |}.

(** Discovery finds the single suite [a], and the watch expression does
    not compile. *)
Definition badExpressionWorld : World :=
  {| FindSuites := FindSuites singleWorld;
     regexp_compiles := fun _ => false;
     DeltaTracker_Delta := DeltaTracker_Delta singleWorld;
     CompileSuite := CompileSuite singleWorld;
     RunCompiledSuite := RunCompiledSuite singleWorld;
     WasInterrupted := WasInterrupted singleWorld;
     Now_Unix := Now_Unix singleWorld;
     FinalizeProfilesAndReportsForSuites := FinalizeProfilesAndReportsForSuites singleWorld;
     PluralizedWord := PluralizedWord singleWorld |}.

(** ** Further notions to describe what the code does *)

(** A run that reported the suite as passed. *)
Definition isPassedRun (e : Event) : bool :=
  match e with
  | EvRunCompiledSuite _ _ _ _ ran => Passed ran
  | _ => false
  end.

Fixpoint passedRuns (out : list Event) : nat :=
  match out with
  | [] => 0%nat
  | e :: rest => ((if isPassedRun e then 1 else 0) + passedRuns rest)%nat
  end.

(** The line that closes a cycle (lines 136-140). *)
Definition closingLine (passed : bool) : Event :=
  EvOutput (Fprintln_F ((if passed then "{{green}}" else "{{red}}") +:+ newline +:+
                        "Done.  Resuming watch...{{/}}") []).

Definition isFinalize (e : Event) : bool :=
  match e with EvFinalize _ _ _ => true | _ => false end.

Definition isDiscovery (e : Event) : bool :=
  match e with EvFindSuites _ _ _ | EvDelta _ _ _ => true | _ => false end.

Definition isMark (e : Event) : bool :=
  match e with EvWillRun _ => true | _ => false end.

(** Everything of the watcher but the random seed and the succinct flag. *)
Definition sameSettings (w w' : SpecWatcher) : Prop :=
  cliConfig w' = cliConfig w /\
  goFlagsConfig w' = goFlagsConfig w /\
  flags w' = flags w /\
  Verbose (reporterConfig w') = Verbose (reporterConfig w).

(** The watcher of a caller who pinned the seed 7. *)
Definition pinnedWatcher : SpecWatcher :=
  {| suiteConfig := {| RandomSeed := 7 |};
     reporterConfig := {| Succinct := false; Verbose := false |};
     cliConfig := {| Depth := 1; WatchRegExp := "\.go$" |};
     goFlagsConfig := {| GoFlags := [] |};
     flags := {| WasSet := fun name => String.eqb name "seed" |} |}.


(** * Facts *)

(** ** The monad *)

Lemma triple_eta {A} (m : M A) w h :
  m w h = (outcome m w h, final m w h, emitted m w h).
Proof. unfold outcome, final, emitted. by destruct (m w h) as [[??]?]. Qed.

Lemma projections {A} (m : M A) w h r w' o :
  m w h = (r, w', o) -> outcome m w h = r /\ final m w h = w' /\ emitted m w h = o.
Proof. intros Hm. unfold outcome, final, emitted. by rewrite Hm. Qed.

Lemma triple_eta_Value {A} (m : M A) w h a :
  outcome m w h = Value a -> m w h = (Value a, final m w h, emitted m w h).
Proof. intros <-. apply triple_eta. Qed.

Lemma bind_Value {A B} (m : M A) (f : A -> M B) w h a w1 o1 :
  m w h = (Value a, w1, o1) ->
  bind m f w h =
    (outcome (f a) w1 (rev_append o1 h), final (f a) w1 (rev_append o1 h),
     o1 ++ emitted (f a) w1 (rev_append o1 h)).
Proof.
  intros Hm. unfold bind. rewrite Hm.
  rewrite (triple_eta (f a)). reflexivity.
Qed.

Lemma bind_run {A B} (m : M A) (f : A -> M B) w h a w1 o1 r w2 o2 :
  m w h = (Value a, w1, o1) ->
  f a w1 (rev_append o1 h) = (r, w2, o2) ->
  bind m f w h = (r, w2, o1 ++ o2).
Proof. intros Hm Hf. unfold bind. by rewrite Hm, Hf. Qed.

Lemma bind_Stop {A B} (m : M A) (f : A -> M B) w h e w1 o1 :
  m w h = (Stop e, w1, o1) -> bind m f w h = (Stop e, w1, o1).
Proof. intros Hm. unfold bind. by rewrite Hm. Qed.

Lemma rev_append_app {A} (l1 l2 l : list A) :
  rev_append (l1 ++ l2) l = rev_append l2 (rev_append l1 l).
Proof. revert l. induction l1 as [|x l1 IH]; intros l; simpl; [done | apply IH]. Qed.

Lemma range_emit {A} (l : list A) (g : A -> Event) w h :
  range l (fun x => emit (g x)) w h = (Value tt, w, g <$> l).
Proof.
  revert h. induction l as [|x l IH]; intros h; [done|].
  cbn [range]. erewrite bind_Value by reflexivity.
  unfold outcome, final, emitted. rewrite IH. reflexivity.
Qed.

(** [run] computes what a sequence of calls does, one [bind] at a time;
    a test that was decided before is looked up among the hypotheses. *)
Ltac run_with known :=
  lazymatch goal with
  | |- bind _ _ _ _ = _ =>
      first [ eapply bind_run; [run_with known | cbn [rev_append app fst snd]; run_with known]
            | eapply bind_Stop; run_with known ]
  | |- range _ _ _ _ = _ => apply range_emit
  | |- (if ?b then _ else _) _ _ = _ =>
      match goal with H : b = _ |- _ => rewrite H; run_with known end
  | |- (match ?x with Some _ => _ | None => _ end) _ _ = _ =>
      match goal with H : x = _ |- _ => rewrite H; run_with known end
  | |- _ => first [known | reflexivity]
  end.

Ltac fprintlns :=
  repeat first
    [ apply Forall_nil_2
    | apply Forall_cons_2; [exact I|]
    | apply Forall_app_2
    | apply Forall_fmap, Forall_true; intros ?; exact I ].

Lemma len_not_pos {A} (l : list A) : (0 <? len l) = false -> l = [].
Proof. destruct l; [done|]. unfold len. intros H%Z.ltb_ge. cbn in H. lia. Qed.

Lemma len_zero {A} (l : list A) : (len l =? 0) = true <-> l = [].
Proof.
  unfold len. rewrite Z.eqb_eq. split; [|by intros ->].
  destruct l; [done|]. cbn. lia.
Qed.

Lemma len_one {A} (l : list A) : (len l =? 1) = true <-> length l = 1%nat.
Proof. unfold len. rewrite Z.eqb_eq. lia. Qed.

Section Facts.

Variable W : World.

Lemma appendSuites_run group suites w h :
  appendSuites group suites w h =
    (Value (suites ++ (Suite_Suite <$> group)), w,
     (fun s => EvOutput (Fprintln_Fi 1 "%s" [AStr (Description s)])) <$> group).
Proof.
  revert suites h. induction group as [|s group IH]; intros suites h.
  - cbn. by rewrite app_nil_r.
  - cbn [appendSuites]. erewrite bind_Value by reflexivity.
    unfold outcome, final, emitted. rewrite IH.
    cbn. by rewrite <- app_assoc.
Qed.

(** ** [compileAndRun] *)

Lemma compileAndRun_cases s args w h :
  let c := CompileSuite W h s (goFlagsConfig w) in
  let h1 := EvCompileSuite s c :: h in
  let r := RunCompiledSuite W (EvWasInterrupted false :: h1) c (suiteConfig w)
             (reporterConfig w) (cliConfig w) (goFlagsConfig w) args in
  compileAndRun W s args w h =
    match CompilationError c with
    | Some e => (Value false, w, [EvCompileSuite s c; EvOutput (Println e)])
    | None =>
        if WasInterrupted W h1
        then (Value false, w, [EvCompileSuite s c; EvWasInterrupted true])
        else (Value (Passed r), w,
              [EvCompileSuite s c; EvWasInterrupted false;
               EvRunCompiledSuite c (suiteConfig w) (reporterConfig w) args r;
               EvCleanup r])
    end.
Proof.
  intros c h1 r. unfold compileAndRun. cbn. fold c.
  destruct (CompilationError c) eqn:E; cbn; [done|].
  fold h1. by destruct (WasInterrupted W h1).
Qed.

Lemma compileAndRun_trace s args w h :
  exists ok o, compileAndRun W s args w h = (Value ok, w, o) /\ SuiteTrace w args s ok o.
Proof.
  rewrite compileAndRun_cases.
  destruct (CompilationError _) as [e|] eqn:E.
  - eexists _, _. split; [done|]. by eapply st_compile_error.
  - destruct (WasInterrupted W _).
    + eexists _, _. split; [done|]. by apply st_interrupted.
    + eexists _, _. split; [done|]. by apply st_ran.
Qed.

Lemma compileAndRun_eta s args w h :
  compileAndRun W s args w h =
    (Value (match outcome (compileAndRun W s args) w h with
            | Value ok => ok
            | Stop _ => false
            end), w, emitted (compileAndRun W s args) w h).
Proof.
  destruct (compileAndRun_trace s args w h) as (ok & o & Hc & _).
  unfold outcome, emitted. by rewrite Hc.
Qed.

(** ** The loop over the run list *)

Lemma runSuites_cons s rest args p w h :
  runSuites W (s :: rest) args p w h =
    if WasInterrupted W h then (Stop Return, w, [EvWasInterrupted true])
    else
      let h1 := EvWillRun s :: EvWasInterrupted false :: h in
      let ok := match outcome (compileAndRun W s args) w h1 with
                | Value ok => ok
                | Stop _ => false
                end in
      let o := emitted (compileAndRun W s args) w h1 in
      let h2 := rev_append o h1 in
      (outcome (runSuites W rest args (ok && p)) w h2,
       final (runSuites W rest args (ok && p)) w h2,
       EvWasInterrupted false :: EvWillRun s :: o ++
         emitted (runSuites W rest args (ok && p)) w h2).
Proof.
  cbn [runSuites]. unfold interruptHandler_WasInterrupted at 1. cbn.
  destruct (WasInterrupted W h) eqn:I; cbn; [done|].
  destruct (compileAndRun_trace s args w (EvWillRun s :: EvWasInterrupted false :: h))
    as (ok & o & Hc & _).
  rewrite (bind_Value _ _ _ _ _ _ _ Hc).
  unfold outcome, final, emitted. rewrite Hc. cbn.
  by destruct (runSuites W rest args (ok && p) w _) as [[??]?].
Qed.

Lemma runSuites_trace suites args p w h :
  exists r out, runSuites W suites args p w h = (r, w, out) /\ CycleTrace w args suites p r out.
Proof.
  revert p h. induction suites as [|s rest IH]; intros p h.
  - eexists _, _. split; [done|]. constructor.
  - rewrite runSuites_cons. destruct (WasInterrupted W h).
    + eexists _, _. split; [done|]. constructor.
    + cbn zeta.
      destruct (compileAndRun_trace s args w (EvWillRun s :: EvWasInterrupted false :: h))
        as (ok & o & Hc & Ho).
      unfold outcome, final, emitted. rewrite Hc. cbn.
      destruct (IH (ok && p) (rev_append o (EvWillRun s :: EvWasInterrupted false :: h)))
        as (r & out & Hr & Hout).
      rewrite Hr. cbn. eexists _, _. split; [done|]. by econstructor.
Qed.

Lemma runSuites_final suites args p w h :
  final (runSuites W suites args p) w h = w.
Proof.
  destruct (runSuites_trace suites args p w h) as (r & out & Hr & _).
  unfold final. by rewrite Hr.
Qed.

Lemma runSuites_CycleTrace suites args p w h :
  CycleTrace w args suites p (outcome (runSuites W suites args p) w h)
    (emitted (runSuites W suites args p) w h).
Proof.
  destruct (runSuites_trace suites args p w h) as (r & out & Hr & Hout).
  unfold outcome, emitted. by rewrite Hr.
Qed.

(** The loop over [done ++ more] is the loop over [done] followed, when
    that one falls through, by the loop over [more]. *)
Lemma runSuites_app done more args p w h :
  runSuites W (done ++ more) args p w h =
    match outcome (runSuites W done args p) w h with
    | Value p1 =>
        let o1 := emitted (runSuites W done args p) w h in
        (outcome (runSuites W more args p1) w (rev_append o1 h),
         final (runSuites W more args p1) w (rev_append o1 h),
         o1 ++ emitted (runSuites W more args p1) w (rev_append o1 h))
    | Stop e => runSuites W done args p w h
    end.
Proof.
  revert p h. induction done as [|s done IH]; intros p h.
  - cbn. by rewrite <- triple_eta.
  - rewrite <- app_comm_cons. unfold outcome, final, emitted.
    rewrite !runSuites_cons.
    destruct (WasInterrupted W h) eqn:I; [done|].
    cbn zeta. unfold outcome, final, emitted. cbn [fst snd].
    rewrite IH. unfold outcome, final, emitted.
    destruct (runSuites W done args _ w _) as [[[p1|e] w1] o1]; cbn [fst snd]; [|done].
    cbn [rev_append]. rewrite rev_append_app.
    by rewrite <- !app_comm_cons, <- app_assoc.
Qed.

Lemma runSuites_app_Value done more args p w h p1 w1 o1 :
  runSuites W done args p w h = (Value p1, w1, o1) ->
  runSuites W (done ++ more) args p w h =
    (outcome (runSuites W more args p1) w (rev_append o1 h), w,
     o1 ++ emitted (runSuites W more args p1) w (rev_append o1 h)).
Proof.
  intros Hdone.
  assert (outcome (runSuites W done args p) w h = Value p1) as Ho
    by (unfold outcome; by rewrite Hdone).
  assert (emitted (runSuites W done args p) w h = o1) as He
    by (unfold emitted; by rewrite Hdone).
  rewrite runSuites_app, Ho. cbn zeta. by rewrite He, runSuites_final.
Qed.

Lemma runSuites_cons_Value s rest args p w h ok o :
  WasInterrupted W h = false ->
  compileAndRun W s args w (EvWillRun s :: EvWasInterrupted false :: h) = (Value ok, w, o) ->
  let h2 := rev_append o (EvWillRun s :: EvWasInterrupted false :: h) in
  runSuites W (s :: rest) args p w h =
    (outcome (runSuites W rest args (ok && p)) w h2, w,
     EvWasInterrupted false :: EvWillRun s :: o ++
       emitted (runSuites W rest args (ok && p)) w h2).
Proof.
  intros Hint Hcar h2.
  assert (outcome (compileAndRun W s args) w (EvWillRun s :: EvWasInterrupted false :: h)
            = Value ok) as Ho by (unfold outcome; by rewrite Hcar).
  assert (emitted (compileAndRun W s args) w (EvWillRun s :: EvWasInterrupted false :: h)
            = o) as He by (unfold emitted; by rewrite Hcar).
  rewrite runSuites_cons, Hint. cbn zeta. rewrite Ho, He. fold h2.
  by rewrite runSuites_final.
Qed.

End Facts.

(** ** What the shape of a cycle implies *)

(** [peel] takes one more event off the front of [pre] in an equation
    [e :: l = pre ++ x :: post]. *)
Ltac peel :=
  cbn [app] in *;
  match goal with
  | H : [] = ?pre ++ _ :: _ |- _ => is_var pre; destruct pre; simplify_eq/=
  | H : _ :: _ = ?pre ++ _ :: _ |- _ => is_var pre; destruct pre; simplify_eq/=
  end.

(** [absent] closes [x ∈ l -> False] for a concrete [l] that does not hold
    an event built like [x]. *)
Ltac absent :=
  let Hin := fresh "Hin" in
  intros Hin;
  repeat (apply elem_of_cons in Hin as [Hin|Hin]; [discriminate Hin|]);
  by apply elem_of_nil in Hin.

(** [members H] splits a membership [H] in a list built from [::], [++]
    and [<$>] into its cases. *)
Ltac members H :=
  repeat first
    [ apply elem_of_app in H as [H|H]
    | match type of H with ?x ∈ _ => is_var x end; apply elem_of_cons in H as [->|H]
    | apply elem_of_cons in H as [H|H]
    | apply elem_of_nil in H; destruct H
    | match type of H with ?x ∈ _ => is_var x end;
      apply list_elem_of_fmap in H as (? & -> & _)
    | apply list_elem_of_fmap in H as (? & H & _) ].

Lemma SuiteTrace_head w args s ok o :
  SuiteTrace w args s ok o -> exists c o', o = EvCompileSuite s c :: o'.
Proof. destruct 1; eauto. Qed.

Lemma SuiteTrace_last w args s ok o :
  SuiteTrace w args s ok o -> exists o' e, o = o' ++ [e] /\ completes e.
Proof.
  destruct 1.
  - by exists [EvCompileSuite s c], (EvOutput (Println e)).
  - by exists [EvCompileSuite s c], (EvWasInterrupted true).
  - eexists [_; _; _], (EvCleanup r). done.
Qed.


(** A split of [l1 ++ l2] falls into [l1] or into [l2]. *)
Lemma split_app {A} (l1 l2 pre post : list A) (x : A) :
  l1 ++ l2 = pre ++ x :: post ->
  x ∈ l1 \/ exists pre', pre = l1 ++ pre' /\ l2 = pre' ++ x :: post.
Proof.
  revert pre. induction l1 as [|e l1 IH]; intros pre H.
  - right. by exists pre.
  - destruct pre as [|e' pre]; simplify_eq/=.
    + left. left.
    + destruct (IH pre) as [Hin|(pre' & -> & ->)]; [done| |].
      * left. by right.
      * right. by exists pre'.
Qed.

(** A split of [o ++ out] at an event that [o] does not hold falls into
    [out]. *)
Lemma split_after_block (o out pre post : list Event) (x : Event) :
  o ++ out = pre ++ x :: post ->
  x ∉ o ->
  exists pre', pre = o ++ pre' /\ out = pre' ++ x :: post.
Proof. intros H Hx. by destruct (split_app _ _ _ _ _ H) as [?|?]. Qed.

Lemma SuiteTrace_mark_free w args s ok o s' :
  SuiteTrace w args s ok o -> EvWillRun s' ∉ o.
Proof. destruct 1; absent. Qed.

Lemma SuiteTrace_compile_tail w args s ok c o s' c' :
  SuiteTrace w args s ok (EvCompileSuite s c :: o) -> EvCompileSuite s' c' ∉ o.
Proof. inversion 1; absent. Qed.

Lemma CycleTrace_mark_then_compile w args suites p r out pre s post :
  CycleTrace w args suites p r out ->
  out = pre ++ EvWillRun s :: post ->
  exists c post', post = EvCompileSuite s c :: post'.
Proof.
  intros Hct. revert pre. induction Hct as [|s0 rest p|s0 rest p ok o r out Ho Hct IH];
    intros pre H.
  - peel.
  - repeat peel.
  - peel. peel.
    + destruct (SuiteTrace_head _ _ _ _ _ Ho) as (c & o' & ->). by eexists _, _.
    + match goal with H : _ ++ _ = _ ++ _ :: _ |- _ =>
        destruct (split_after_block _ _ _ _ _ H) as (pre' & -> & Hout) end.
      { by eapply SuiteTrace_mark_free. }
      by eapply IH.
Qed.

Lemma CycleTrace_compile_after_mark w args suites p r out pre s c post :
  CycleTrace w args suites p r out ->
  out = pre ++ EvCompileSuite s c :: post ->
  exists pre', pre = pre' ++ [EvWillRun s].
Proof.
  intros Hct. revert pre. induction Hct as [|s0 rest p|s0 rest p ok o r out Ho Hct IH];
    intros pre H.
  - peel.
  - repeat peel.
  - peel. peel.
    destruct (SuiteTrace_head _ _ _ _ _ Ho) as (c0 & o' & ->).
    peel.
    + by exists [EvWasInterrupted false].
    + match goal with H : _ ++ _ = _ ++ _ :: _ |- _ =>
        destruct (split_after_block _ _ _ _ _ H) as (pre' & -> & Hout) end.
      { by eapply SuiteTrace_compile_tail. }
      destruct (IH _ Hout) as (pre'' & ->).
      exists (EvWasInterrupted false :: EvWillRun s0 :: EvCompileSuite s0 c0 :: o' ++ pre'').
      by rewrite !app_comm_cons, <- app_assoc.
Qed.

Lemma CycleTrace_mark_after_completion w args suites p r out pre s post :
  CycleTrace w args suites p r out ->
  out = pre ++ EvWillRun s :: post ->
  exists pre', pre = pre' ++ [EvWasInterrupted false] /\
    (pre' = [] \/ exists pre'' e, pre' = pre'' ++ [e] /\ completes e).
Proof.
  intros Hct. revert pre. induction Hct as [|s0 rest p|s0 rest p ok o r out Ho Hct IH];
    intros pre H.
  - peel.
  - repeat peel.
  - peel. peel.
    + exists []. by split; [|left].
    + match goal with H : _ ++ _ = _ ++ _ :: _ |- _ =>
        destruct (split_after_block _ _ _ _ _ H) as (pre' & -> & Hout) end.
      { by eapply SuiteTrace_mark_free. }
      destruct (IH _ Hout) as (pre1 & -> & Hpre1).
      exists (EvWasInterrupted false :: EvWillRun s0 :: o ++ pre1).
      split; [by rewrite !app_comm_cons, <- app_assoc|].
      right. destruct Hpre1 as [->|(pre2 & e & -> & He)].
      * destruct (SuiteTrace_last _ _ _ _ _ Ho) as (o' & e & -> & He).
        exists (EvWasInterrupted false :: EvWillRun s0 :: o'), e.
        by rewrite app_nil_r.
      * exists (EvWasInterrupted false :: EvWillRun s0 :: o ++ pre2), e.
        by rewrite !app_comm_cons, <- app_assoc.
Qed.

Lemma attempted_app (o1 o2 : list Event) :
  attempted (o1 ++ o2) = attempted o1 ++ attempted o2.
Proof.
  induction o1 as [|e o1 IH]; [done|].
  destruct e; cbn; by rewrite ?IH.
Qed.


Lemma SuiteTrace_attempted w args s ok o :
  SuiteTrace w args s ok o -> attempted o = [s].
Proof. by destruct 1. Qed.

Lemma CycleTrace_attempted w args suites p r out :
  CycleTrace w args suites p r out ->
  attempted out `prefix_of` suites /\ (forall b, r = Value b -> attempted out = suites).
Proof.
  induction 1 as [|s0 rest p|s0 rest p ok o r out Ho Hct [IHp IHe]].
  - done.
  - split; [apply prefix_nil|done].
  - cbn [attempted]. rewrite attempted_app, (SuiteTrace_attempted _ _ _ _ _ Ho).
    split.
    + by apply prefix_cons.
    + intros b ->. cbn. f_equal. by eapply IHe.
Qed.

Lemma SuiteTrace_runs_config w args s ok o s' sc rc a ran :
  SuiteTrace w args s ok o ->
  EvRunCompiledSuite s' sc rc a ran ∈ o ->
  sc = suiteConfig w /\ rc = reporterConfig w /\ a = args.
Proof.
  destruct 1; intros Hin;
    repeat (apply elem_of_cons in Hin as [Hin|Hin]; [by simplify_eq|]);
    by apply elem_of_nil in Hin.
Qed.

Lemma CycleTrace_runs_config w args suites p r out s' sc rc a ran :
  CycleTrace w args suites p r out ->
  EvRunCompiledSuite s' sc rc a ran ∈ out ->
  sc = suiteConfig w /\ rc = reporterConfig w /\ a = args.
Proof.
  induction 1 as [|s0 rest p|s0 rest p ok o r out Ho Hct IH]; intros Hin.
  - by apply elem_of_nil in Hin.
  - revert Hin. absent.
  - do 2 (apply elem_of_cons in Hin as [Hin|Hin]; [discriminate Hin|]).
    apply elem_of_app in Hin as [Hin|Hin]; [|by apply IH].
    by eapply SuiteTrace_runs_config.
Qed.

Lemma SuiteTrace_quiet w args s ok o e :
  SuiteTrace w args s ok o -> e ∈ o -> isNow e = false /\ isPrintf e = false.
Proof.
  destruct 1; intros Hin;
    repeat (apply elem_of_cons in Hin as [->|Hin]; [done|]);
    by apply elem_of_nil in Hin.
Qed.

(** The loop over the run list neither reads the clock nor calls
    [fmt.Printf]. *)
Lemma CycleTrace_quiet w args suites p r out e :
  CycleTrace w args suites p r out -> e ∈ out -> isNow e = false /\ isPrintf e = false.
Proof.
  induction 1 as [|s0 rest p|s0 rest p ok o r out Ho Hct IH]; intros Hin.
  - by apply elem_of_nil in Hin.
  - apply elem_of_cons in Hin as [->|Hin]; [done|]. by apply elem_of_nil in Hin.
  - do 2 (apply elem_of_cons in Hin as [->|Hin]; [done|]).
    apply elem_of_app in Hin as [Hin|Hin]; [|by apply IH].
    by eapply SuiteTrace_quiet.
Qed.

(** [passed] can only end true if it started true. *)
Lemma CycleTrace_passed w args suites p r out :
  CycleTrace w args suites p r out -> r = Value true -> p = true.
Proof.
  induction 1 as [|s0 rest p|s0 rest p ok o r out Ho Hct IH]; intros Hr.
  - by simplify_eq.
  - done.
  - by apply IH, andb_true_iff in Hr as [_ ->].
Qed.

(** Once [passed] is false it stays false. *)
Lemma CycleTrace_failed w args suites r out b :
  CycleTrace w args suites false r out -> r = Value b -> b = false.
Proof.
  intros Hct ->. destruct b; [|done].
  by apply CycleTrace_passed in Hct.
Qed.

(** The loop ends by falling through or by the [return] that follows an
    observed interrupt. *)
Lemma CycleTrace_exit w args suites p r out e :
  CycleTrace w args suites p r out -> r = Stop e ->
  e = Return /\ last out = Some (EvWasInterrupted true).
Proof.
  induction 1 as [|s0 rest p|s0 rest p ok o r out Ho Hct IH]; intros Hr.
  - done.
  - by simplify_eq.
  - destruct (IH Hr) as [-> Hlast]. split; [done|].
    rewrite !app_comm_cons. by rewrite last_app, Hlast.
Qed.

(** The events of the loop over the run list, by kind. *)
Lemma CycleTrace_kinds w args suites p r out e :
  CycleTrace w args suites p r out -> e ∈ out ->
  match e with
  | EvWasInterrupted _ | EvWillRun _ | EvCompileSuite _ _ | EvOutput (Println _)
  | EvRunCompiledSuite _ _ _ _ _ | EvCleanup _ => True
  | _ => False
  end.
Proof.
  induction 1 as [|s0 rest p|s0 rest p ok o r out Ho Hct IH]; intros Hin.
  - by apply elem_of_nil in Hin.
  - apply elem_of_cons in Hin as [->|Hin]; [done|]. by apply elem_of_nil in Hin.
  - do 2 (apply elem_of_cons in Hin as [->|Hin]; [done|]).
    apply elem_of_app in Hin as [Hin|Hin]; [|by apply IH].
    destruct Ho; repeat (apply elem_of_cons in Hin as [->|Hin]; [done|]);
      by apply elem_of_nil in Hin.
Qed.


(** ** Decisions, cycles, ticks *)

Section Ticks.

Variable W : World.

Ltac run := run_with ltac:(first [apply appendSuites_run | eassumption]).

Lemma updateSeed_run w h :
  updateSeed W w h =
    if WasSet (flags w) "seed" then (Value tt, w, [])
    else (Value tt, set_RandomSeed (Now_Unix W h) w, [EvNow (Now_Unix W h)]).
Proof. unfold updateSeed. cbn. by destruct (WasSet (flags w) "seed"). Qed.

Lemma updateSeed_outcome w h : outcome (updateSeed W) w h = Value tt.
Proof. unfold outcome. rewrite updateSeed_run. by destruct (WasSet _ _). Qed.

Lemma computeSuccinctMode_run n w h :
  computeSuccinctMode n w h =
    (Value tt,
     if Verbose (reporterConfig w) then set_Succinct false w
     else if WasSet (flags w) "succinct" then w
     else if n =? 1 then set_Succinct false w
     else if 1 <? n then set_Succinct true w
     else w,
     []).
Proof.
  unfold computeSuccinctMode. cbn.
  destruct (Verbose (reporterConfig w)); [done|].
  destruct (WasSet (flags w) "succinct"); [done|].
  destruct (n =? 1) eqn:E1; cbn.
  - apply Z.eqb_eq in E1 as ->. done.
  - by destruct (1 <? n).
Qed.

Lemma collectSuites_run args w h :
  let found := FindSuites W h args (cliConfig w) in
  let h1 := EvFindSuites args (cliConfig w) found :: h in
  let r := DeltaTracker_Delta W h1 found in
  let delta := r.1 in
  exists outs : list Event,
    collectSuites W args w h =
      (Value ((Suite_Suite <$> NewSuites delta) ++ (Suite_Suite <$> ModifiedSuites delta)), w,
       EvFindSuites args (cliConfig w) found :: EvDelta found delta r.2 :: outs) /\
    (NewSuites delta = [] -> ModifiedSuites delta = [] -> outs = []) /\
    Forall isFprintln outs.
Proof.
  intros found h1 r delta.
  destruct (0 <? len (NewSuites delta)) eqn:En;
    destruct (0 <? len (ModifiedSuites delta)) eqn:Em;
    subst delta r h1 found;
    (eassert (collectSuites W args w h = _) as Hrun; [unfold collectSuites; run|]);
    rewrite Hrun; clear Hrun; cbn [app];
    try (apply len_not_pos in En; rewrite ?En);
    try (apply len_not_pos in Em; rewrite ?Em);
    rewrite ?app_nil_r;
    (eexists; split; [reflexivity|]); (split; [|fprintlns]).
  all: intros Hn Hm; first [reflexivity | rewrite ?Hn, ?Hm in *; discriminate].
Qed.


Lemma computeSuccinctMode_final n w h :
  final (computeSuccinctMode n) w h =
    if Verbose (reporterConfig w) then set_Succinct false w
    else if WasSet (flags w) "succinct" then w
    else if n =? 1 then set_Succinct false w
    else if 1 <? n then set_Succinct true w
    else w.
Proof. unfold final. by rewrite computeSuccinctMode_run. Qed.

Lemma decisions_run n w h :
  decisions W n w h =
    (Value tt, final (computeSuccinctMode n) (final (updateSeed W) w h) [],
     emitted (updateSeed W) w h).
Proof.
  unfold decisions.
  erewrite bind_run; [|apply triple_eta_Value, updateSeed_outcome|apply computeSuccinctMode_run].
  by rewrite app_nil_r, computeSuccinctMode_final.
Qed.

Lemma finishCycle_run suites (passed : bool) w h :
  let closing := EvOutput (Fprintln_F ((if passed then "{{green}}" else "{{red}}") +:+
                   newline +:+ "Done.  Resuming watch...{{/}}") []) in
  let r := FinalizeProfilesAndReportsForSuites W (closing :: h) suites (cliConfig w)
             (suiteConfig w) (reporterConfig w) (goFlagsConfig w) in
  finishCycle W suites passed w h =
    match r.2 with
    | Some e =>
        (Stop (Abort "could not finalize profiles:" (Some e)), w,
         [closing; EvFinalize suites r.1 r.2])
    | None =>
        (Value tt, w, closing :: EvFinalize suites r.1 r.2 :: (EvOutput ∘ Println <$> r.1))
    end.
Proof.
  intros closing r. unfold finishCycle. cbn. fold closing. fold r.
  destruct r as [msgs [e|]]; cbn [fst snd command_AbortIfError]; cbn.
  - done.
  - rewrite (range_emit msgs (EvOutput ∘ Println)). done.
Qed.

Lemma finishCycle_final suites passed w h :
  final (finishCycle W suites passed) w h = w.
Proof.
  unfold final. rewrite finishCycle_run. cbn zeta.
  by destruct (FinalizeProfilesAndReportsForSuites _ _ _ _ _ _ _) as [? [?|]].
Qed.

Lemma runCycle_run suites args w h :
  let w2 := final (decisions W (len suites)) w h in
  let o1 := emitted (decisions W (len suites)) w h in
  let h2 := rev_append o1 h in
  let o2 := emitted (runSuites W suites args true) w2 h2 in
  runCycle W suites args w h =
    match outcome (runSuites W suites args true) w2 h2 with
    | Value passed =>
        (outcome (finishCycle W suites passed) w2 (rev_append o2 h2), w2,
         o1 ++ o2 ++ emitted (finishCycle W suites passed) w2 (rev_append o2 h2))
    | Stop e => (Stop e, w2, o1 ++ o2)
    end.
Proof.
  intros w2 o1 h2 o2. unfold runCycle.
  pose proof (decisions_run (len suites) w h) as Hd.
  assert (decisions W (len suites) w h = (Value tt, w2, o1)) as Hd'.
  { subst w2 o1. unfold final, emitted. by rewrite Hd. }
  destruct (outcome (runSuites W suites args true) w2 h2) as [passed|e] eqn:Ho.
  - erewrite bind_run; [done|exact Hd'|]. fold h2.
    erewrite bind_run; [done|by apply triple_eta_Value|].
    rewrite runSuites_final. fold o2.
    rewrite (triple_eta (finishCycle W suites passed)).
    f_equal. f_equal. apply finishCycle_final.
  - erewrite bind_run; [done|exact Hd'|]. fold h2.
    apply bind_Stop. rewrite (triple_eta (runSuites W suites args true)).
    by rewrite Ho, runSuites_final.
Qed.



Lemma onTick_run args addl w h :
  let o0 := emitted (collectSuites W args) w h in
  exists suites,
    outcome (collectSuites W args) w h = Value suites /\
    onTick W args addl w h =
      if len suites =? 0 then (Value tt, w, o0)
      else (outcome (runCycle W suites addl) w (rev_append o0 h),
            final (runCycle W suites addl) w (rev_append o0 h),
            o0 ++ emitted (runCycle W suites addl) w (rev_append o0 h)).
Proof.
  intros o0. destruct (collectSuites_run args w h) as (outs & Hrun & _).
  eexists. split; [unfold outcome; by rewrite Hrun|].
  eassert (emitted (collectSuites W args) w h = _) as He
    by (unfold emitted; rewrite Hrun; reflexivity).
  unfold onTick. subst o0. rewrite !He.
  destruct (len _ =? 0) eqn:E.
  - erewrite bind_run; [|exact Hrun|rewrite E; reflexivity]. by rewrite app_nil_r.
  - erewrite bind_run; [|exact Hrun|rewrite E; apply triple_eta]. done.
Qed.

Lemma watchLoop_tick args addl later w h :
  let h1 := EvSelect TickerC :: h in
  let w1 := final (onTick W args addl) w h1 in
  let o1 := emitted (onTick W args addl) w h1 in
  watchLoop W args addl (TickerC :: later) w h =
    match outcome (onTick W args addl) w h1 with
    | Value _ =>
        (outcome (watchLoop W args addl later) w1 (rev_append o1 h1),
         final (watchLoop W args addl later) w1 (rev_append o1 h1),
         EvSelect TickerC :: o1 ++ emitted (watchLoop W args addl later) w1 (rev_append o1 h1))
    | Stop e => (Stop e, w1, EvSelect TickerC :: o1)
    end.
Proof.
  intros h1 w1 o1. cbn [watchLoop].
  destruct (outcome (onTick W args addl) w h1) as [[]|e] eqn:Ho.
  - erewrite bind_run; [|reflexivity|cbn [rev_append]; fold h1].
    2:{ erewrite bind_run; [|by apply triple_eta_Value|apply triple_eta]. done. }
    done.
  - erewrite bind_run; [|reflexivity|cbn [rev_append]; fold h1].
    2:{ apply bind_Stop. rewrite (triple_eta (onTick W args addl)). by rewrite Ho. }
    done.
Qed.

Lemma watchLoop_interrupt args addl later w h :
  watchLoop W args addl (InterruptChannel :: later) w h =
    (Stop Return, w, [EvSelect InterruptChannel]).
Proof. reflexivity. Qed.


Lemma startup_empty args addl w h :
  FindSuites W h args (cliConfig w) = [] ->
  startup W args addl w h =
    (Stop (Abort "Found no test suites" None), w, [EvFindSuites args (cliConfig w) []]).
Proof.
  intros Hfound.
  assert ((len (FindSuites W h args (cliConfig w)) =? 0) = true) as H0 by by rewrite Hfound.
  eassert (startup W args addl w h = _) as Hrun.
  { unfold startup. run_with fail. }
  rewrite Hrun. by rewrite Hfound.
Qed.

Lemma startup_run args addl w h :
  let found := FindSuites W h args (cliConfig w) in
  let intro := introduction W args w h in
  let h1 := rev_append intro h in
  found <> [] ->
  regexp_compiles W (WatchRegExp (cliConfig w)) = true ->
  startup W args addl w h =
    match found with
    | [suite] =>
        let w1 := final (updateSeed W) w h1 in
        let o1 := emitted (updateSeed W) w h1 in
        (Value tt, w1,
         intro ++ o1 ++ emitted (compileAndRun W suite addl) w1 (rev_append o1 h1) ++
         [EvNewTicker time_Second])
    | _ => (Value tt, w, intro ++ [EvNewTicker time_Second])
    end.
Proof.
  intros found intro h1 Hne Hre.
  subst h1 intro found. unfold introduction.
  destruct (FindSuites W h args (cliConfig w)) as [|s [|s' l]] eqn:EF; [done| |].
  - assert ((len (FindSuites W h args (cliConfig w)) =? 0) = false) as H0 by by rewrite EF.
    assert ((len (FindSuites W h args (cliConfig w)) =? 1) = true) as H1 by by rewrite EF.
    assert (FindSuites W h args (cliConfig w) !! 0%nat = Some s) as Hs by by rewrite EF.
    eassert (startup W args addl w h = _) as Hrun.
    { unfold startup.
      run_with ltac:(first [ by apply triple_eta_Value, updateSeed_outcome
                           | apply compileAndRun_eta
                           | unfold NewDeltaTracker; rewrite Hre; reflexivity ]). }
    rewrite Hrun. clear Hrun. cbn zeta. rewrite !rev_append_app. cbn [rev_append app].
    rewrite EF, ?app_nil_r. by rewrite <- ?app_assoc.
  - assert ((len (FindSuites W h args (cliConfig w)) =? 0) = false) as H0 by by rewrite EF.
    assert ((len (FindSuites W h args (cliConfig w)) =? 1) = false) as H1.
    { rewrite EF. apply not_true_iff_false. by rewrite len_one. }
    eassert (startup W args addl w h = _) as Hrun.
    { unfold startup.
      run_with ltac:(first [ unfold NewDeltaTracker; rewrite Hre; reflexivity ]). }
    rewrite Hrun. clear Hrun. cbn [app].
    rewrite EF, ?app_nil_r. by rewrite <- ?app_assoc.
Qed.

Lemma decisions_final n w h :
  let w2 := final (decisions W n) w h in
  suiteConfig w2 = suiteConfig (final (updateSeed W) w h) /\
  RandomSeed (suiteConfig w2) =
    (if WasSet (flags w) "seed" then RandomSeed (suiteConfig w) else Now_Unix W h) /\
  reporterConfig w2 = reporterConfig (final (computeSuccinctMode n) w h).
Proof.
  cbn zeta.
  assert (final (decisions W n) w h =
            final (computeSuccinctMode n) (final (updateSeed W) w h) []) as ->
    by (unfold final at 1; by rewrite decisions_run).
  rewrite !computeSuccinctMode_final.
  assert (final (updateSeed W) w h =
            if WasSet (flags w) "seed" then w else set_RandomSeed (Now_Unix W h) w) as ->
    by (unfold final; rewrite updateSeed_run; by destruct (WasSet (flags w) "seed")).
  destruct (WasSet (flags w) "seed"); cbn;
    destruct (Verbose (reporterConfig w)), (WasSet (flags w) "succinct"),
      (n =? 1), (1 <? n); done.
Qed.

Lemma decisions_emitted n w h :
  emitted (decisions W n) w h =
    if WasSet (flags w) "seed" then [] else [EvNow (Now_Unix W h)].
Proof.
  unfold emitted at 1. rewrite decisions_run. cbn [snd].
  unfold emitted. rewrite updateSeed_run. by destruct (WasSet (flags w) "seed").
Qed.

Lemma finishCycle_emitted suites passed w h e :
  e ∈ emitted (finishCycle W suites passed) w h ->
  attempted [e] = [] /\ isNow e = false /\ isPrintf e = false /\
  (forall s sc rc a r, e <> EvRunCompiledSuite s sc rc a r).
Proof.
  unfold emitted. rewrite finishCycle_run. cbn zeta.
  destruct (FinalizeProfilesAndReportsForSuites _ _ _ _ _ _ _) as [msgs [err|]];
    cbn [fst snd]; intros Hin.
  - repeat (apply elem_of_cons in Hin as [->|Hin]; [done|]). by apply elem_of_nil in Hin.
  - do 2 (apply elem_of_cons in Hin as [->|Hin]; [done|]).
    apply list_elem_of_fmap in Hin as (m & -> & _). done.
Qed.

End Ticks.

(** ** The parts of a cycle and of a tick *)

Section Parts.

Variable W : World.

(** A cycle is its decisions, the loop over the run list and, when the
    loop falls through, the closing line, the finalization and its
    messages. *)
Lemma runCycle_parts suites args w h :
  let w2 := final (decisions W (len suites)) w h in
  let o1 := if WasSet (flags w) "seed" then [] else [EvNow (Now_Unix W h)] in
  let h2 := rev_append o1 h in
  let o2 := emitted (runSuites W suites args true) w2 h2 in
  exists o3,
    emitted (runCycle W suites args) w h = o1 ++ o2 ++ o3 /\
    final (runCycle W suites args) w h = w2 /\
    CycleTrace w2 args suites true (outcome (runSuites W suites args true) w2 h2) o2 /\
    match outcome (runSuites W suites args true) w2 h2 with
    | Value passed =>
        exists msgs err,
          o3 = closingLine passed :: EvFinalize suites msgs err ::
               match err with
               | Some _ => []
               | None => EvOutput ∘ Println <$> msgs
               end /\
          outcome (runCycle W suites args) w h =
            match err with
            | Some e => Stop (Abort "could not finalize profiles:" (Some e))
            | None => Value tt
            end
    | Stop e => o3 = [] /\ e = Return /\ outcome (runCycle W suites args) w h = Stop Return
    end.
Proof.
  intros w2 o1 h2 o2.
  pose proof (runCycle_run W suites args w h) as Hrun. cbn zeta in Hrun.
  rewrite decisions_emitted in Hrun. fold w2 o1 h2 o2 in Hrun.
  pose proof (runSuites_CycleTrace W suites args true w2 h2) as Hct. fold o2 in Hct.
  destruct (outcome (runSuites W suites args true) w2 h2) as [passed|e] eqn:Ho.
  - apply projections in Hrun as (Hout & Hfin & Hem).
    pose proof (finishCycle_run W suites passed w2 (rev_append o2 h2)) as Hfinish.
    cbn zeta in Hfinish. fold (closingLine passed) in Hfinish.
    rewrite Hout, Hfin, Hem.
    destruct (FinalizeProfilesAndReportsForSuites W _ suites _ _ _ _) as [msgs [err|]];
      simpl in Hfinish.
    all: apply projections in Hfinish as (Hfo & _ & Hfe); rewrite Hfo, Hfe.
    all: eexists; (split; [done|]); (split; [done|]); (split; [done|]).
    + by exists msgs, (Some err).
    + by exists msgs, None.
  - apply projections in Hrun as (Hout & Hfin & Hem).
    destruct (CycleTrace_exit _ _ _ _ _ _ _ Hct eq_refl) as [-> _].
    exists []. by rewrite app_nil_r.
Qed.

(** A tick is the discovery, the call of the tracker, the announcement
    and, for a run list that is not empty, the cycle. *)
Lemma onTick_parts args addl w h :
  let found := FindSuites W h args (cliConfig w) in
  let r := DeltaTracker_Delta W (EvFindSuites args (cliConfig w) found :: h) found in
  let runList := (Suite_Suite <$> NewSuites r.1) ++ (Suite_Suite <$> ModifiedSuites r.1) in
  let h0 := rev_append (emitted (collectSuites W args) w h) h in
  exists outs,
    Forall isFprintln outs /\
    emitted (collectSuites W args) w h =
      EvFindSuites args (cliConfig w) found :: EvDelta found r.1 r.2 :: outs /\
    onTick W args addl w h =
      match runList with
      | [] => (Value tt, w, emitted (collectSuites W args) w h)
      | _ => (outcome (runCycle W runList addl) w h0,
              final (runCycle W runList addl) w h0,
              emitted (collectSuites W args) w h ++ emitted (runCycle W runList addl) w h0)
      end.
Proof.
  intros found r runList h0.
  destruct (collectSuites_run W args w h) as (outs & Hrun & _ & Houts).
  fold found r runList in Hrun.
  apply projections in Hrun as (Hout & _ & Hem).
  destruct (onTick_run W args addl w h) as (suites & Hout' & Htick).
  rewrite Hout in Hout'. injection Hout' as <-.
  exists outs. split; [done|]. split; [done|]. rewrite Htick. fold h0.
  destruct runList as [|s0 l] eqn:E.
  - done.
  - assert ((len (s0 :: l) =? 0) = false) as ->; [|done].
    apply not_true_iff_false. by rewrite len_zero.
Qed.

End Parts.

(** * The claims *)

Section Running.

Variable W : World.

(** C1, as amended.  In the loop over the run list the tracker's mark
    ([WillRun]) of a suite comes immediately before the start of that
    suite's compile-and-run, not after it: every mark is directly followed
    by the compile of the same suite, every compile is directly preceded by
    the mark of the same suite, and a mark directly follows an interrupt
    check that found nothing, which is the first event of the loop or
    directly follows the last event of the previous suite's
    compile-and-run (so the next suite is attempted only then). *)
Theorem C1_mark_immediately_before_run suites args passed w h :
  let out := emitted (runSuites W suites args passed) w h in
  (forall pre s post, out = pre ++ EvWillRun s :: post ->
     exists c post', post = EvCompileSuite s c :: post') /\
  (forall pre s c post, out = pre ++ EvCompileSuite s c :: post ->
     exists pre', pre = pre' ++ [EvWillRun s]) /\
  (forall pre s post, out = pre ++ EvWillRun s :: post ->
     exists pre', pre = pre' ++ [EvWasInterrupted false] /\
       (pre' = [] \/ exists pre'' e, pre' = pre'' ++ [e] /\ completes e)).
Proof.
  intros out. pose proof (runSuites_CycleTrace W suites args passed w h) as Hct.
  fold out in Hct. repeat split.
  - intros pre s post. by eapply CycleTrace_mark_then_compile.
  - intros pre s c post. by eapply CycleTrace_compile_after_mark.
  - intros pre s post. by eapply CycleTrace_mark_after_completion.
Qed.

(** C2.  When the suites [done] before [s] have been dealt with and the
    interrupt check before [s] finds the interrupt set, the loop ends with
    the [return] of [WatchSpecs]: nothing that follows the loop is run
    (whatever [k] is), the events of [done] stay as they are and are
    followed by the check alone, and the suites whose compile-and-run was
    started are exactly [done]. *)
Theorem C2_interrupt_before_suite done s rest args passed w h p1 w1 o1 :
  runSuites W done args passed w h = (Value p1, w1, o1) ->
  WasInterrupted W (rev_append o1 h) = true ->
  runSuites W (done ++ s :: rest) args passed w h =
    (Stop Return, w1, o1 ++ [EvWasInterrupted true]) /\
  (forall B (k : bool -> M B),
     bind (runSuites W (done ++ s :: rest) args passed) k w h =
       (Stop Return, w1, o1 ++ [EvWasInterrupted true])) /\
  attempted (o1 ++ [EvWasInterrupted true]) = done.
Proof.
  intros Hdone Hint.
  assert (w1 = w) as ->.
  { pose proof (runSuites_final W done args passed w h) as Hf.
    unfold final in Hf. by rewrite Hdone in Hf. }
  assert (runSuites W (done ++ s :: rest) args passed w h =
            (Stop Return, w, o1 ++ [EvWasInterrupted true])) as Hrun.
  { rewrite (runSuites_app_Value W _ _ _ _ _ _ _ _ _ Hdone).
    unfold outcome, emitted. by rewrite runSuites_cons, Hint. }
  split; [done|]. split.
  - intros B k. by apply bind_Stop.
  - pose proof (runSuites_CycleTrace W done args passed w h) as Hct.
    unfold outcome, emitted in Hct. rewrite Hdone in Hct. cbn in Hct.
    rewrite attempted_app. cbn. rewrite app_nil_r.
    by eapply CycleTrace_attempted.
Qed.

(** C8.  When the suites [done] before [s] have been dealt with, no
    interrupt is seen before [s] and the compile of [s] fails with [e]:
    [compileAndRun] prints the error and returns false without running the
    suite; the loop goes on with the suites after [s], its [passed] being
    false; and whenever the loop falls through, [passed] is false. *)
Theorem C8_compile_failure done s rest args passed w h p1 o1 c e :
  runSuites W done args passed w h = (Value p1, w, o1) ->
  let h1 := rev_append o1 h in
  WasInterrupted W h1 = false ->
  CompileSuite W (EvWillRun s :: EvWasInterrupted false :: h1) s (goFlagsConfig w) = c ->
  CompilationError c = Some e ->
  let block := [EvWasInterrupted false; EvWillRun s; EvCompileSuite s c;
                EvOutput (Println e)] in
  let h2 := rev_append block h1 in
  compileAndRun W s args w (EvWillRun s :: EvWasInterrupted false :: h1) =
    (Value false, w, [EvCompileSuite s c; EvOutput (Println e)]) /\
  runSuites W (done ++ s :: rest) args passed w h =
    (outcome (runSuites W rest args false) w h2, w,
     o1 ++ block ++ emitted (runSuites W rest args false) w h2) /\
  (forall b, outcome (runSuites W (done ++ s :: rest) args passed) w h = Value b ->
     b = false).
Proof.
  intros Hdone h1 Hint Hc He block h2.
  assert (compileAndRun W s args w (EvWillRun s :: EvWasInterrupted false :: h1) =
            (Value false, w, [EvCompileSuite s c; EvOutput (Println e)])) as Hcar.
  { rewrite compileAndRun_cases. cbn zeta. by rewrite Hc, He. }
  assert (runSuites W (done ++ s :: rest) args passed w h =
    (outcome (runSuites W rest args false) w h2, w,
     o1 ++ block ++ emitted (runSuites W rest args false) w h2)) as Hrun.
  { rewrite (runSuites_app_Value W _ _ _ _ _ _ _ _ _ Hdone). fold h1.
    unfold outcome at 1, emitted at 1.
    by rewrite (runSuites_cons_Value W _ _ _ _ _ _ _ _ Hint Hcar). }
  split; [done|]. split; [done|].
  intros b Hb. unfold outcome in Hb at 1. rewrite Hrun in Hb. cbn in Hb.
  eapply CycleTrace_failed; [apply runSuites_CycleTrace|done].
Qed.

(** C10.  When the compile of [s] succeeds and the interrupt is seen right
    after it, [compileAndRun] returns false and its only events are the
    compile and the check: the compiled suite is neither run nor cleaned
    up.  In the loop this makes [passed] false. *)
Theorem C10_interrupt_after_compile s args w h c :
  CompileSuite W h s (goFlagsConfig w) = c ->
  CompilationError c = None ->
  WasInterrupted W (EvCompileSuite s c :: h) = true ->
  compileAndRun W s args w h =
    (Value false, w, [EvCompileSuite s c; EvWasInterrupted true]) /\
  (forall h0 rest passed b,
     h = EvWillRun s :: EvWasInterrupted false :: h0 ->
     WasInterrupted W h0 = false ->
     outcome (runSuites W (s :: rest) args passed) w h0 = Value b -> b = false).
Proof.
  intros Hc He Hint.
  assert (compileAndRun W s args w h =
            (Value false, w, [EvCompileSuite s c; EvWasInterrupted true])) as Hcar.
  { rewrite compileAndRun_cases. cbn zeta. by rewrite Hc, He, Hint. }
  split; [done|].
  intros h0 rest passed b -> Hint0 Hb.
  unfold outcome in Hb at 1.
  rewrite (runSuites_cons_Value W _ _ _ _ _ _ _ _ Hint0 Hcar) in Hb. cbn in Hb.
  eapply CycleTrace_failed; [apply runSuites_CycleTrace|done].
Qed.

End Running.

(** C1 as the specification words it fails: with a single suite [a] and
    no interrupt, the mark of [a] is the second event of the loop and no
    compile of [a] comes before it. *)
Lemma C1_mark_after_run_counterexample :
  ~ MarkedAfterRun (emitted (runSuites calmWorld [suiteA] [] true) watcher0 []).
Proof.
  intros Hclaim.
  destruct (Hclaim [EvWasInterrupted false] suiteA
              (drop 2 (emitted (runSuites calmWorld [suiteA] [] true) watcher0 [])))
    as [c Hc]; [by vm_compute|].
  revert Hc. absent.
Qed.

Lemma C1_mark_immediately_before_run_witness :
  exists c post',
    drop 2 (emitted (runSuites calmWorld [suiteA; suiteB] [] true) watcher0 []) =
      EvCompileSuite suiteA c :: post'.
Proof.
  exact (proj1 (C1_mark_immediately_before_run calmWorld [suiteA; suiteB] [] true watcher0 [])
           [EvWasInterrupted false] suiteA
           (drop 2 (emitted (runSuites calmWorld [suiteA; suiteB] [] true) watcher0 []))
           eq_refl).
Defined.

Lemma C2_interrupt_before_suite_witness :
  let o1 := emitted (runSuites interruptedWorld [suiteA] [] true) watcher0 [] in
  runSuites interruptedWorld ([suiteA] ++ suiteB :: [suiteC]) [] true watcher0 [] =
    (Stop Return, watcher0, o1 ++ [EvWasInterrupted true]) /\
  (forall B (k : bool -> M B),
     bind (runSuites interruptedWorld ([suiteA] ++ suiteB :: [suiteC]) [] true) k watcher0 [] =
       (Stop Return, watcher0, o1 ++ [EvWasInterrupted true])) /\
  attempted (o1 ++ [EvWasInterrupted true]) = [suiteA].
Proof.
  intros o1.
  apply (C2_interrupt_before_suite interruptedWorld [suiteA] suiteB [suiteC] [] true
           watcher0 [] true watcher0 o1); reflexivity.
Defined.

Lemma C8_compile_failure_witness :
  let W := brokenWorld in
  let o1 := emitted (runSuites W [suiteB] [] true) watcher0 [] in
  let h1 := rev_append o1 [] in
  let c := CompileSuite W (EvWillRun suiteA :: EvWasInterrupted false :: h1) suiteA
             (goFlagsConfig watcher0) in
  let block := [EvWasInterrupted false; EvWillRun suiteA; EvCompileSuite suiteA c;
                EvOutput (Println "cannot compile a")] in
  let h2 := rev_append block h1 in
  compileAndRun W suiteA [] watcher0 (EvWillRun suiteA :: EvWasInterrupted false :: h1) =
    (Value false, watcher0, [EvCompileSuite suiteA c; EvOutput (Println "cannot compile a")]) /\
  runSuites W ([suiteB] ++ suiteA :: [suiteC]) [] true watcher0 [] =
    (outcome (runSuites W [suiteC] [] false) watcher0 h2, watcher0,
     o1 ++ block ++ emitted (runSuites W [suiteC] [] false) watcher0 h2) /\
  (forall b, outcome (runSuites W ([suiteB] ++ suiteA :: [suiteC]) [] true) watcher0 [] = Value b ->
     b = false).
Proof.
  intros W o1 h1 c block h2.
  apply (C8_compile_failure W [suiteB] suiteA [suiteC] [] true watcher0 [] true o1 c
           "cannot compile a"); reflexivity.
Defined.

Lemma C10_interrupt_after_compile_witness :
  let W := interruptedCompileWorld in
  let h := [EvWillRun suiteA; EvWasInterrupted false] in
  compileAndRun W suiteA [] watcher0 h =
    (Value false, watcher0, [EvCompileSuite suiteA suiteA; EvWasInterrupted true]) /\
  (forall h0 rest passed b,
     h = EvWillRun suiteA :: EvWasInterrupted false :: h0 ->
     WasInterrupted W h0 = false ->
     outcome (runSuites W (suiteA :: rest) [] passed) watcher0 h0 = Value b -> b = false).
Proof.
  intros W h.
  apply (C10_interrupt_after_compile W suiteA [] watcher0 h suiteA); reflexivity.
Defined.

Section Cycles.

Variable W : World.

Lemma attempted_isFprintln (outs : list Event) :
  Forall isFprintln outs -> attempted outs = [].
Proof.
  induction 1 as [|e outs He _ IH]; [done|].
  by destruct e as [| | | | | | | | | | | |[]].
Qed.

Lemma attempted_nil_iff (out : list Event) :
  (forall e, e ∈ out -> attempted [e] = []) -> attempted out = [].
Proof.
  induction out as [|e out IH]; intros H; [done|].
  change (e :: out) with ([e] ++ out). rewrite attempted_app, H, IH; [done| |left].
  intros e' He'. apply H. by right.
Qed.

(** What the cycle emits splits into the decisions, the loop over the run
    list and the closing part. *)
Lemma runCycle_emitted suites args w h :
  let w2 := final (decisions W (len suites)) w h in
  let o1 := emitted (decisions W (len suites)) w h in
  let h2 := rev_append o1 h in
  let o2 := emitted (runSuites W suites args true) w2 h2 in
  exists o3,
    emitted (runCycle W suites args) w h = o1 ++ o2 ++ o3 /\
    final (runCycle W suites args) w h = w2 /\
    (forall e, e ∈ o3 ->
       attempted [e] = [] /\ isNow e = false /\ isPrintf e = false /\
       (forall s sc rc a r, e <> EvRunCompiledSuite s sc rc a r)) /\
    match outcome (runSuites W suites args true) w2 h2 with
    | Value passed =>
        outcome (runCycle W suites args) w h =
          outcome (finishCycle W suites passed) w2 (rev_append o2 h2)
    | Stop e => outcome (runCycle W suites args) w h = Stop e /\ o3 = []
    end.
Proof.
  intros w2 o1 h2 o2.
  pose proof (runCycle_run W suites args w h) as Hrun. cbn zeta in Hrun.
  fold w2 o1 h2 o2 in Hrun. unfold emitted at 1, final at 1, outcome at 2 3.
  destruct (outcome (runSuites W suites args true) w2 h2) as [passed|e];
    rewrite Hrun; cbn [fst snd].
  - eexists. split; [done|]. split; [done|]. split; [|done].
    intros e. apply finishCycle_emitted.
  - exists []. rewrite app_nil_r. split; [done|]. split; [done|]. split.
    + intros e' He'. by apply elem_of_nil in He'.
    + split; [|done]. unfold outcome. by rewrite Hrun.
Qed.

(** C3.  When the first discovery finds no suite, [WatchSpecs] aborts with
    "Found no test suites" right after that discovery, whatever the
    [select] would have delivered: the loop is never entered.  On a tick
    whose delta holds neither a new nor a modified suite, the tick does
    nothing beyond discovery and classification, the watcher is unchanged
    and the loop goes on with the next case of the [select]. *)
Theorem C3_no_suites args addl w h :
  (FindSuites W h args (cliConfig w) = [] ->
   forall cases,
     WatchSpecs W args addl cases w h =
       (Stop (Abort "Found no test suites" None), w,
        [EvFindSuites args (cliConfig w) []])) /\
  (forall later,
     let h1 := EvSelect TickerC :: h in
     let found := FindSuites W h1 args (cliConfig w) in
     let r := DeltaTracker_Delta W (EvFindSuites args (cliConfig w) found :: h1) found in
     let tick := [EvSelect TickerC; EvFindSuites args (cliConfig w) found;
                  EvDelta found r.1 r.2] in
     NewSuites r.1 = [] -> ModifiedSuites r.1 = [] ->
     watchLoop W args addl (TickerC :: later) w h =
       (outcome (watchLoop W args addl later) w (rev_append tick h),
        final (watchLoop W args addl later) w (rev_append tick h),
        tick ++ emitted (watchLoop W args addl later) w (rev_append tick h))).
Proof.
  split.
  - intros Hfound cases. unfold WatchSpecs.
    apply bind_Stop. by apply startup_empty.
  - intros later h1 found r tick Hnew Hmod.
    destruct (collectSuites_run W args w h1) as (outs & Hrun & Houts & _).
    fold found r in Hrun, Houts. rewrite Hnew, Hmod in Hrun.
    rewrite (Houts Hnew Hmod) in Hrun. cbn [fmap list_fmap app] in Hrun.
    assert (onTick W args addl w h1 =
              (Value tt, w, [EvFindSuites args (cliConfig w) found; EvDelta found r.1 r.2]))
      as Htick.
    { unfold onTick. erewrite bind_run; [|exact Hrun|reflexivity]. done. }
    apply projections in Htick as (Ho & Hf & He).
    rewrite watchLoop_tick. cbn zeta. fold h1. by rewrite Ho, Hf, He.
Qed.

(** C5, as amended.  The run list of a tick is the new suites followed
    by the modified suites of the delta that the tracker returned for the
    suites discovery found on this tick, each group in the order in which
    the delta lists it; the loop neither sorts nor filters it.  The suites
    whose compile-and-run is started during the tick are, in order, a
    prefix of that list, and all of it unless the tick ends by the
    [return] that follows an interrupt.  The order in which discovery
    returned the suites is kept only as far as the tracker keeps it: when
    the delta lists both groups in discovery order, so does the run
    list.  What the tick does with the run list is the loop of lines
    129-135 over it, suite by suite the interrupt check, the mark and the
    whole compile-and-run; nothing else in the tick marks, compiles or
    runs a suite. *)
Theorem C5_run_list_order args addl w h :
  let found := FindSuites W h args (cliConfig w) in
  let delta := (DeltaTracker_Delta W (EvFindSuites args (cliConfig w) found :: h) found).1 in
  let runList := (Suite_Suite <$> NewSuites delta) ++ (Suite_Suite <$> ModifiedSuites delta) in
  outcome (collectSuites W args) w h = Value runList /\
  attempted (emitted (onTick W args addl) w h) `prefix_of` runList /\
  (outcome (onTick W args addl) w h <> Stop Return ->
   attempted (emitted (onTick W args addl) w h) = runList) /\
  (exists errors rest,
     emitted (onTick W args addl) w h =
       EvFindSuites args (cliConfig w) found :: EvDelta found delta errors :: rest /\
     forall e, e ∈ rest -> isDiscovery e = false) /\
  (Suite_Suite <$> NewSuites delta `sublist_of` found ->
   Suite_Suite <$> ModifiedSuites delta `sublist_of` found ->
   InDiscoveryOrder found runList) /\
  (exists pre r o post,
     emitted (onTick W args addl) w h = pre ++ o ++ post /\
     CycleTrace (final (onTick W args addl) w h) addl runList true r o /\
     forall e, e ∈ pre ++ post -> startsWork e = false).
Proof.
  intros found delta runList.
  assert (exists pre r o post,
     emitted (onTick W args addl) w h = pre ++ o ++ post /\
     CycleTrace (final (onTick W args addl) w h) addl runList true r o /\
     forall e, e ∈ pre ++ post -> startsWork e = false) as Hexec.
  { destruct (onTick_parts W args addl w h) as (outs & Houts & Hcollect & Htick).
    cbn zeta in Hcollect, Htick. fold found delta runList in Hcollect, Htick.
    assert (forall e, e ∈ emitted (collectSuites W args) w h -> startsWork e = false)
      as Hquiet.
    { rewrite Hcollect. intros e Hin.
      do 2 (apply elem_of_cons in Hin as [->|Hin]; [done|]).
      rewrite Forall_forall in Houts. apply Houts in Hin.
      by destruct e as [| | | | | | | | | | | |[]]. }
    clearbody runList.
    destruct runList as [|s0 l].
    { apply projections in Htick as (_ & -> & ->).
      exists (emitted (collectSuites W args) w h), (Value true), [], [].
      split; [by rewrite !app_nil_r|]. split; [constructor|].
      intros e Hin. rewrite app_nil_r in Hin. by apply Hquiet. }
    set (h0 := rev_append (emitted (collectSuites W args) w h) h) in *.
    apply projections in Htick as (_ & -> & ->).
    destruct (runCycle_parts W (s0 :: l) addl w h0) as (o3 & -> & -> & Hct & Hcase).
    cbn zeta in Hct, Hcase.
    set (o1 := if WasSet (flags w) "seed" then [] else [EvNow (Now_Unix W h0)]) in *.
    exists (emitted (collectSuites W args) w h ++ o1),
      (outcome (runSuites W (s0 :: l) addl true)
         (final (decisions W (len (s0 :: l))) w h0) (rev_append o1 h0)),
      (emitted (runSuites W (s0 :: l) addl true)
         (final (decisions W (len (s0 :: l))) w h0) (rev_append o1 h0)), o3.
    split; [by rewrite <- !app_assoc|]. split; [exact Hct|].
    intros e Hin. rewrite <- app_assoc in Hin.
    apply elem_of_app in Hin as [Hin|Hin]; [by apply Hquiet|].
    apply elem_of_app in Hin as [Hin|Hin].
    { subst o1. destruct (WasSet (flags w) "seed"); members Hin. done. }
    destruct (outcome (runSuites W (s0 :: l) addl true) _ _).
    - destruct Hcase as (msgs & [err|] & -> & _); members Hin; done.
    - destruct Hcase as (-> & _). by apply elem_of_nil in Hin. }
  assert ((exists errors rest,
     emitted (onTick W args addl) w h =
       EvFindSuites args (cliConfig w) found :: EvDelta found delta errors :: rest /\
     forall e, e ∈ rest -> isDiscovery e = false) /\
    (Suite_Suite <$> NewSuites delta `sublist_of` found ->
     Suite_Suite <$> ModifiedSuites delta `sublist_of` found ->
     InDiscoveryOrder found runList)) as Hmore.
  { split; [|intros Hnew Hmod; by exists (Suite_Suite <$> NewSuites delta),
                                        (Suite_Suite <$> ModifiedSuites delta)].
    destruct (onTick_parts W args addl w h) as (outs & Houts & Hcollect & Htick).
    cbn zeta in Hcollect, Htick. fold found delta in Hcollect.
    assert (forall e, e ∈ outs -> isDiscovery e = false) as Hquiet.
    { intros e Hin. rewrite Forall_forall in Houts. apply Houts in Hin.
      by destruct e as [| | | | | | | | | | | |[]]. }
    destruct (_ ++ _) as [|s0 l] in Htick.
    { apply projections in Htick as (_ & _ & ->). rewrite Hcollect. by eexists _, _. }
    set (h0 := rev_append (emitted (collectSuites W args) w h) h) in *.
    apply projections in Htick as (_ & _ & ->). rewrite Hcollect.
    eexists _, _. split; [rewrite <- !app_comm_cons; reflexivity|].
    intros e Hin. apply elem_of_app in Hin as [Hin|Hin]; [by apply Hquiet|].
    destruct (runCycle_parts W (s0 :: l) addl w h0) as (o3 & Hem & _ & Hct & Hcase).
    cbn zeta in Hem, Hct, Hcase. rewrite Hem in Hin.
    apply elem_of_app in Hin as [Hin|Hin].
    { destruct (WasSet (flags w) "seed"); members Hin. done. }
    apply elem_of_app in Hin as [Hin|Hin].
    { pose proof (CycleTrace_kinds _ _ _ _ _ _ _ Hct Hin) as Hkind.
      by destruct e as [| | | | | | | | | | | |[]]. }
    destruct (outcome (runSuites W (s0 :: l) addl true) _ _).
    - destruct Hcase as (msgs & [err|] & -> & _); members Hin; done.
    - destruct Hcase as (-> & _). by apply elem_of_nil in Hin. }
  destruct (collectSuites_run W args w h) as (outs & Hrun & _ & Houts).
  fold found delta runList in Hrun.
  assert (outcome (collectSuites W args) w h = Value runList) as Hout
    by (unfold outcome; by rewrite Hrun).
  assert (attempted (emitted (collectSuites W args) w h) = []) as Hquiet.
  { unfold emitted. rewrite Hrun. cbn. by apply attempted_isFprintln. }
  split; [done|].
  enough (attempted (emitted (onTick W args addl) w h) `prefix_of` runList /\
          (outcome (onTick W args addl) w h <> Stop Return ->
           attempted (emitted (onTick W args addl) w h) = runList)) as [Hprefix Hall]
    by (split; [done|]; split; [done|]; split; [exact (proj1 Hmore)|];
        split; [exact (proj2 Hmore)|exact Hexec]).
  clear Hmore Hexec.
  destruct (onTick_run W args addl w h) as (suites & Hout' & Htick).
  rewrite Hout in Hout'. injection Hout' as <-.
  unfold outcome at 1, emitted at 1 2. rewrite Htick.
  destruct (len runList =? 0) eqn:E.
  - apply len_zero in E. cbn [fst snd]. rewrite Hquiet, E. done.
  - cbn [fst snd]. rewrite attempted_app, Hquiet. cbn [app].
    destruct (runCycle_emitted runList addl w
                (rev_append (emitted (collectSuites W args) w h) h))
      as (o3 & -> & _ & Ho3 & Hexit).
    rewrite !attempted_app, decisions_emitted.
    rewrite (attempted_nil_iff o3) by (intros e He; by apply Ho3).
    rewrite app_nil_r.
    assert (forall t, attempted (if WasSet (flags w) "seed" then [] else [EvNow t]) = []) as ->
      by (intros t; by destruct (WasSet _ _)).
    cbn [app].
    pose proof (runSuites_CycleTrace W runList addl true
                  (final (decisions W (len runList)) w
                     (rev_append (emitted (collectSuites W args) w h) h))
                  (rev_append (emitted (decisions W (len runList)) w
                     (rev_append (emitted (collectSuites W args) w h) h))
                     (rev_append (emitted (collectSuites W args) w h) h))) as Hct.
    destruct (CycleTrace_attempted _ _ _ _ _ _ Hct) as [Hprefix Hall].
    rewrite decisions_emitted in Hprefix, Hall, Hexit.
    split; [done|]. intros Hne.
    destruct (outcome (runSuites W runList addl true) _ _) as [passed|e] eqn:Ho.
    + by eapply Hall.
    + destruct Hexit as [Hexit _]. exfalso. apply Hne. rewrite Hexit.
      rewrite decisions_emitted in Hct. rewrite Ho in Hct.
      by destruct (CycleTrace_exit _ _ _ _ _ _ _ Hct eq_refl) as [-> _].
Qed.

(** The runs of a cycle all get the configuration fixed by the decisions
    at its start. *)
Lemma runCycle_runs_config suites args w h s sc rc a r :
  EvRunCompiledSuite s sc rc a r ∈ emitted (runCycle W suites args) w h ->
  sc = suiteConfig (final (decisions W (len suites)) w h) /\
  rc = reporterConfig (final (decisions W (len suites)) w h).
Proof.
  destruct (runCycle_emitted suites args w h) as (o3 & -> & _ & Ho3 & _).
  rewrite decisions_emitted. intros Hin.
  apply elem_of_app in Hin as [Hin|Hin].
  { destruct (WasSet (flags w) "seed"); revert Hin; absent. }
  apply elem_of_app in Hin as [Hin|Hin].
  - pose proof (runSuites_CycleTrace W suites args true
                  (final (decisions W (len suites)) w h)
                  (rev_append (if WasSet (flags w) "seed" then []
                               else [EvNow (Now_Unix W h)]) h)) as Hct.
    by destruct (CycleTrace_runs_config _ _ _ _ _ _ _ _ _ _ _ Hct Hin) as (-> & -> & _).
  - by destruct (Ho3 _ Hin) as (_ & _ & _ & Hne); destruct (Hne s sc rc a r).
Qed.

(** C6, as amended.  In a cycle the seed is decided once, before the run
    list is walked: unless the caller pinned a seed, a fresh one is read
    from the clock (the prior seed is not reused); with a pinned seed the
    clock is not read and the seed stays.  Every suite run in the cycle
    gets that one seed, the clock is read at most once and only as the
    first event of the cycle, and the watcher keeps the seed. *)
Theorem C6_seed_decided_once suites args w h :
  let pinned := WasSet (flags w) "seed" in
  let seed := if pinned then RandomSeed (suiteConfig w) else Now_Unix W h in
  let out := emitted (runCycle W suites args) w h in
  (forall s sc rc a r, EvRunCompiledSuite s sc rc a r ∈ out -> RandomSeed sc = seed) /\
  (exists rest, out = (if pinned then [] else [EvNow seed]) ++ rest /\
                forall e, e ∈ rest -> isNow e = false) /\
  RandomSeed (suiteConfig (final (runCycle W suites args) w h)) = seed.
Proof.
  intros pinned seed out.
  destruct (decisions_final W (len suites) w h) as (_ & Hseed & _). fold pinned seed in Hseed.
  split; [|split].
  - intros s sc rc a r Hin.
    by destruct (runCycle_runs_config _ _ _ _ _ _ _ _ _ Hin) as (-> & _).
  - subst out. destruct (runCycle_emitted suites args w h) as (o3 & -> & _ & Ho3 & _).
    rewrite decisions_emitted.
    match goal with |- ex (fun rest => _ ++ ?r = _ /\ _) => exists r end. split.
    { subst seed pinned. by destruct (WasSet (flags w) "seed"). }
    intros e [Hin|Hin]%elem_of_app.
    + eapply CycleTrace_quiet; [apply runSuites_CycleTrace|done].
    + by destruct (Ho3 _ Hin) as (_ & ? & _).
  - destruct (runCycle_emitted suites args w h) as (o3 & _ & -> & _). done.
Qed.

(** C7, as amended.  In a cycle the display mode is decided once, before
    the run list is walked, and every suite run in the cycle gets it, with
    the verbose flag untouched.  In verbose mode the mode is non-succinct,
    whatever the succinct option says and whether or not the caller set
    it; otherwise an explicitly set succinct option is kept as the caller
    set it; otherwise one suite gives the non-succinct mode and more than
    one the succinct mode. *)
Theorem C7_display_mode_decided_once suites args w h :
  let out := emitted (runCycle W suites args) w h in
  let verbose := Verbose (reporterConfig w) in
  let explicit := WasSet (flags w) "succinct" in
  exists mode : bool,
    (forall s sc rc a r, EvRunCompiledSuite s sc rc a r ∈ out ->
       Succinct rc = mode /\ Verbose rc = verbose) /\
    Succinct (reporterConfig (final (runCycle W suites args) w h)) = mode /\
    (verbose = true -> mode = false) /\
    (verbose = false -> explicit = true -> mode = Succinct (reporterConfig w)) /\
    (verbose = false -> explicit = false -> length suites = 1%nat -> mode = false) /\
    (verbose = false -> explicit = false -> (1 < length suites)%nat -> mode = true).
Proof.
  intros out verbose explicit.
  destruct (decisions_final W (len suites) w h) as (_ & _ & Hrc).
  rewrite computeSuccinctMode_final in Hrc.
  exists (Succinct (reporterConfig (final (decisions W (len suites)) w h))).
  split; [|split].
  - intros s sc rc a r Hin.
    destruct (runCycle_runs_config _ _ _ _ _ _ _ _ _ Hin) as (_ & ->).
    split; [done|]. rewrite Hrc. subst verbose.
    by destruct (Verbose (reporterConfig w)) eqn:?, (WasSet (flags w) "succinct"),
      (len suites =? 1), (1 <? len suites).
  - by destruct (runCycle_emitted suites args w h) as (o3 & _ & -> & _).
  - rewrite Hrc. subst verbose explicit. repeat split.
    + by intros ->.
    + by intros -> ->.
    + intros -> -> Hone. apply len_one in Hone. by rewrite Hone.
    + intros -> -> Hmany.
      assert ((len suites =? 1) = false) as -> by (apply Z.eqb_neq; unfold len; lia).
      assert ((1 <? len suites) = true) as -> by (apply Z.ltb_lt; unfold len; lia).
      done.
Qed.

End Cycles.

Section Watching.

Variable W : World.

Lemma startup_panic args addl w h :
  let found := FindSuites W h args (cliConfig w) in
  found <> [] ->
  regexp_compiles W (WatchRegExp (cliConfig w)) = false ->
  startup W args addl w h =
    (Stop (Panic (WatchRegExp (cliConfig w))), w,
     [EvFindSuites args (cliConfig w) found;
      EvOutput (Printf
        ("Identified %d test %s.  Locating dependencies to a depth of %d (this may take a while)..."
           +:+ newline)
        [AInt (len found); AStr (PluralizedWord W "suite" "suites" (len found));
         AInt (Depth (cliConfig w))])]).
Proof.
  intros found Hne Hre.
  assert ((len (FindSuites W h args (cliConfig w)) =? 0) = false) as H0.
  { apply not_true_iff_false. by rewrite len_zero. }
  eassert (startup W args addl w h = _) as Hrun.
  { unfold startup.
    run_with ltac:(unfold NewDeltaTracker; rewrite Hre; reflexivity). }
  by rewrite Hrun.
Qed.

Lemma introduction_kinds args w h e :
  e ∈ introduction W args w h ->
  match e with
  | EvFindSuites a c _ => a = args /\ c = cliConfig w
  | EvNewDeltaTracker _ _ | EvDelta _ _ _
  | EvOutput (Printf _ _) | EvOutput (Println _) => True
  | _ => False
  end.
Proof. unfold introduction. cbn zeta. intros Hin. members Hin; done. Qed.

(** The four ways the part before the loop can go. *)
Lemma startup_cases args addl w h :
  let found := FindSuites W h args (cliConfig w) in
  let intro := introduction W args w h in
  let h1 := rev_append intro h in
  (found = [] /\
   startup W args addl w h =
     (Stop (Abort "Found no test suites" None), w, [EvFindSuites args (cliConfig w) []])) \/
  (found <> [] /\ regexp_compiles W (WatchRegExp (cliConfig w)) = false /\
   exists o, startup W args addl w h = (Stop (Panic (WatchRegExp (cliConfig w))), w, o) /\
             o `prefix_of` intro) \/
  (length found <> 1%nat /\ found <> [] /\
   regexp_compiles W (WatchRegExp (cliConfig w)) = true /\
   startup W args addl w h = (Value tt, w, intro ++ [EvNewTicker time_Second])) \/
  (exists s ok oc,
     found = [s] /\ regexp_compiles W (WatchRegExp (cliConfig w)) = true /\
     SuiteTrace (final (updateSeed W) w h1) addl s ok oc /\
     startup W args addl w h =
       (Value tt, final (updateSeed W) w h1,
        intro ++ emitted (updateSeed W) w h1 ++ oc ++ [EvNewTicker time_Second])).
Proof.
  intros found intro h1.
  destruct (decide (found = [])) as [Hnil|Hne].
  { left. split; [done|]. by apply startup_empty. }
  right. destruct (regexp_compiles W (WatchRegExp (cliConfig w))) eqn:Hre.
  2:{ left. split; [done|]. split; [done|]. eexists. split; [by apply startup_panic|].
      subst intro. unfold introduction. cbn zeta. fold found.
      by eexists (_ :: _). }
  right. pose proof (startup_run W args addl w h Hne Hre) as Hrun. cbn zeta in Hrun.
  fold found intro h1 in Hrun.
  destruct found as [|s [|s' l]] eqn:E; [done| |].
  - right.
    destruct (compileAndRun_trace W s addl (final (updateSeed W) w h1)
                (rev_append (emitted (updateSeed W) w h1) h1)) as (ok & oc & Hc & Ho).
    exists s, ok, oc. split; [done|]. split; [done|]. split; [done|].
    rewrite Hrun. apply projections in Hc as (_ & _ & ->). done.
  - left. by rewrite Hrun.
Qed.


Lemma updateSeed_emitted w h e :
  e ∈ emitted (updateSeed W) w h -> exists t, e = EvNow t.
Proof.
  unfold emitted. rewrite updateSeed_run.
  destruct (WasSet (flags w) "seed"); cbn [snd]; intros Hin.
  - by apply elem_of_nil in Hin.
  - apply elem_of_cons in Hin as [->|Hin]; [by eexists|]. by apply elem_of_nil in Hin.
Qed.

Lemma introduction_quiet args w h e :
  e ∈ introduction W args w h -> startsWork e = false.
Proof.
  unfold introduction. cbn zeta. intros Hin.
  apply elem_of_app in Hin as [Hin|Hin].
  { repeat (apply elem_of_cons in Hin as [->|Hin]; [done|]). by apply elem_of_nil in Hin. }
  apply elem_of_app in Hin as [Hin|Hin];
    by apply list_elem_of_fmap in Hin as (x & -> & _).
Qed.


Lemma WatchSpecs_run args addl cases w h :
  WatchSpecs W args addl cases w h =
    match outcome (startup W args addl) w h with
    | Value _ =>
        let w1 := final (startup W args addl) w h in
        let o1 := emitted (startup W args addl) w h in
        (outcome (watchLoop W args addl cases) w1 (rev_append o1 h),
         final (watchLoop W args addl cases) w1 (rev_append o1 h),
         o1 ++ emitted (watchLoop W args addl cases) w1 (rev_append o1 h))
    | Stop e => startup W args addl w h
    end.
Proof.
  unfold WatchSpecs.
  destruct (outcome (startup W args addl) w h) as [[]|e] eqn:Ho.
  - eapply bind_run; [by apply triple_eta_Value|apply triple_eta].
  - rewrite (triple_eta (startup W args addl)), Ho. apply bind_Stop.
    by rewrite (triple_eta (startup W args addl)), Ho.
Qed.

(** The loop emits nothing before the first case of its [select]. *)
Lemma watchLoop_head args addl cases w h :
  emitted (watchLoop W args addl cases) w h = [] \/
  emitted (watchLoop W args addl cases) w h = [EvSelect InterruptChannel] \/
  exists rest, emitted (watchLoop W args addl cases) w h = EvSelect TickerC :: rest.
Proof.
  destruct cases as [|[] later].
  - by left.
  - right. right. unfold emitted. rewrite watchLoop_tick. cbn zeta.
    destruct (outcome (onTick W args addl) w _); by eexists.
  - right. by left.
Qed.

Lemma last_app_Some' {A} (l1 l2 : list A) x :
  last l2 = Some x -> last (l1 ++ l2) = Some x.
Proof. intros H. by rewrite last_app, H. Qed.


Lemma finishCycle_outcome suites passed w h :
  outcome (finishCycle W suites passed) w h = Value tt \/
  exists msgs err,
    outcome (finishCycle W suites passed) w h =
      Stop (Abort "could not finalize profiles:" (Some err)) /\
    last (emitted (finishCycle W suites passed) w h) =
      Some (EvFinalize suites msgs (Some err)).
Proof.
  unfold outcome, emitted. rewrite finishCycle_run. cbn zeta.
  destruct (FinalizeProfilesAndReportsForSuites _ _ _ _ _ _ _) as [msgs [err|]];
    cbn [fst snd]; [|by left].
  right. by exists msgs, err.
Qed.

(** A tick falls through, or ends [WatchSpecs] by the [return] that
    follows an observed interrupt, or aborts because the profiles and
    reports could not be finalized. *)
Lemma onTick_outcome args addl w h :
  outcome (onTick W args addl) w h = Value tt \/
  (outcome (onTick W args addl) w h = Stop Return /\
   last (emitted (onTick W args addl) w h) = Some (EvWasInterrupted true)) \/
  (exists suites msgs err,
     outcome (onTick W args addl) w h = Stop (Abort "could not finalize profiles:" (Some err)) /\
     last (emitted (onTick W args addl) w h) = Some (EvFinalize suites msgs (Some err))).
Proof.
  destruct (onTick_run W args addl w h) as (suites & _ & Htick).
  unfold outcome at 1 2 3, emitted at 1 2. rewrite Htick.
  destruct (len suites =? 0); cbn [fst snd]; [by left|].
  set (h0 := rev_append (emitted (collectSuites W args) w h) h).
  destruct (runCycle_emitted W suites addl w h0) as (o3 & Hem & _ & _ & Hexit).
  pose proof (runCycle_run W suites addl w h0) as Hrun. cbn zeta in Hrun.
  pose proof (runSuites_CycleTrace W suites addl true
                (final (decisions W (len suites)) w h0)
                (rev_append (emitted (decisions W (len suites)) w h0) h0)) as Hct.
  destruct (outcome (runSuites W suites addl true) _ _) as [passed|e] eqn:Ho.
  - apply projections in Hrun as (Hout & _ & Hem').
    rewrite Hout, Hem'.
    destruct (finishCycle_outcome suites passed (final (decisions W (len suites)) w h0)
                (rev_append (emitted (runSuites W suites addl true)
                   (final (decisions W (len suites)) w h0)
                   (rev_append (emitted (decisions W (len suites)) w h0) h0))
                   (rev_append (emitted (decisions W (len suites)) w h0) h0)))
      as [->|(msgs & err & -> & Hlast)]; [by left|].
    right. right. exists suites, msgs, err. split; [done|].
    by do 3 apply last_app_Some'.
  - destruct (CycleTrace_exit _ _ _ _ _ _ _ Hct eq_refl) as [-> Hlast].
    destruct Hexit as [Hout ->]. right. left. rewrite Hout, Hem. split; [done|].
    rewrite app_nil_r. by do 2 apply last_app_Some'.
Qed.


(** C9, as amended.  Before its loop [WatchSpecs] starts work on a suite
    (marks, compiles or runs one) exactly when the first discovery found
    one suite and the watch expression compiles.  It then makes the whole
    compile-and-run of that suite before the one-second ticker is
    created: the suite is compiled; a compile error is printed; otherwise
    the interrupt handler is asked and, unless it reports an interrupt,
    the compiled suite is run with the watcher's configuration and
    cleaned up.  Whatever the [select] delivers, an event of work that has
    no tick before it exists only in that case: otherwise nothing is
    compiled or run until the first tick. *)
Theorem C9_immediate_run args addl w h :
  let found := FindSuites W h args (cliConfig w) in
  let compiles := regexp_compiles W (WatchRegExp (cliConfig w)) in
  let out := emitted (startup W args addl) w h in
  let w' := final (startup W args addl) w h in
  ((exists e, e ∈ out /\ startsWork e = true) <->
   length found = 1%nat /\ compiles = true) /\
  (forall suite, found = [suite] -> compiles = true ->
     exists pre,
       let hc := rev_append pre h in
       let c := CompileSuite W hc suite (goFlagsConfig w') in
       let r := RunCompiledSuite W (EvWasInterrupted false :: EvCompileSuite suite c :: hc) c
                  (suiteConfig w') (reporterConfig w') (cliConfig w') (goFlagsConfig w')
                  addl in
       (forall e, e ∈ pre -> startsWork e = false) /\
       out = pre ++
             match CompilationError c with
             | Some err => [EvCompileSuite suite c; EvOutput (Println err)]
             | None =>
                 if WasInterrupted W (EvCompileSuite suite c :: hc)
                 then [EvCompileSuite suite c; EvWasInterrupted true]
                 else [EvCompileSuite suite c; EvWasInterrupted false;
                       EvRunCompiledSuite c (suiteConfig w') (reporterConfig w') addl r;
                       EvCleanup r]
             end ++ [EvNewTicker time_Second]) /\
  (forall cases pre e post,
     emitted (WatchSpecs W args addl cases) w h = pre ++ e :: post ->
     startsWork e = true ->
     EvSelect TickerC ∉ pre ->
     length found = 1%nat /\ compiles = true).
Proof.
  intros found compiles out w'.
  assert (forall suite, found = [suite] -> compiles = true ->
     exists pre,
       let hc := rev_append pre h in
       let c := CompileSuite W hc suite (goFlagsConfig w') in
       let r := RunCompiledSuite W (EvWasInterrupted false :: EvCompileSuite suite c :: hc) c
                  (suiteConfig w') (reporterConfig w') (cliConfig w') (goFlagsConfig w')
                  addl in
       (forall e, e ∈ pre -> startsWork e = false) /\
       out = pre ++
             match CompilationError c with
             | Some err => [EvCompileSuite suite c; EvOutput (Println err)]
             | None =>
                 if WasInterrupted W (EvCompileSuite suite c :: hc)
                 then [EvCompileSuite suite c; EvWasInterrupted true]
                 else [EvCompileSuite suite c; EvWasInterrupted false;
                       EvRunCompiledSuite c (suiteConfig w') (reporterConfig w') addl r;
                       EvCleanup r]
             end ++ [EvNewTicker time_Second]) as Hsingle.
  { intros suite Hfound Hre.
    assert (found <> []) as Hne by by rewrite Hfound.
    pose proof (startup_run W args addl w h Hne Hre) as Hrun. cbn zeta in Hrun.
    fold found in Hrun. rewrite Hfound in Hrun.
    apply projections in Hrun as (_ & Hfin & Hem). subst out w'. rewrite Hem, Hfin.
    set (h1 := rev_append (introduction W args w h) h).
    exists (introduction W args w h ++ emitted (updateSeed W) w h1).
    cbn zeta. rewrite rev_append_app. fold h1. split.
    - intros e [Hin|Hin]%elem_of_app.
      + by eapply introduction_quiet.
      + by apply updateSeed_emitted in Hin as [t ->].
    - rewrite <- app_assoc. do 3 f_equal.
      unfold emitted at 1. rewrite compileAndRun_cases. cbn zeta.
      destruct (CompilationError _); [done|]. by destruct (WasInterrupted W _). }
  assert ((exists e, e ∈ out /\ startsWork e = true) <->
          length found = 1%nat /\ compiles = true) as Hiff.
  { split.
    - intros (e & Hin & He). subst out.
      destruct (startup_cases args addl w h)
        as [[Hnil Hrun]|[(Hne & Hre & o & Hrun & Hpre)|[(Hlen & Hne & Hre & Hrun)|
            (s & ok & oc & Hfound & Hre & Hoc & Hrun)]]].
      + apply projections in Hrun as (_ & _ & Hem). rewrite Hem in Hin.
        members Hin. done.
      + apply projections in Hrun as (_ & _ & Hem). rewrite Hem in Hin.
        destruct Hpre as [post Hpost].
        assert (e ∈ introduction W args w h) as Hin'
          by (rewrite Hpost; apply elem_of_app; by left).
        apply introduction_quiet in Hin'. congruence.
      + apply projections in Hrun as (_ & _ & Hem). rewrite Hem in Hin.
        apply elem_of_app in Hin as [Hin|Hin].
        * apply introduction_quiet in Hin. congruence.
        * members Hin. done.
      + subst found compiles. by rewrite Hfound.
    - intros [Hlen Hre]. destruct found as [|s0 [|? ?]] eqn:EF; try done.
      destruct (Hsingle s0 eq_refl Hre) as (pre & _ & Hout). cbn zeta in Hout.
      rewrite Hout.
      destruct (CompilationError _); [|destruct (WasInterrupted W _)];
        (eexists (EvCompileSuite s0 _); split; [|done]);
        apply elem_of_app; right; left. }
  split; [done|]. split; [done|].
  intros cases pre e post Hsplit He Hpre. apply Hiff.
  assert (emitted (WatchSpecs W args addl cases) w h =
            match outcome (startup W args addl) w h with
            | Value _ =>
                out ++ emitted (watchLoop W args addl cases)
                         (final (startup W args addl) w h) (rev_append out h)
            | Stop _ => out
            end) as Hem.
  { unfold emitted at 1. rewrite WatchSpecs_run.
    by destruct (outcome (startup W args addl) w h) as [[]|x]. }
  rewrite Hem in Hsplit. clear Hem.
  assert (e ∈ out \/ exists pre', pre = out ++ pre' /\
            emitted (watchLoop W args addl cases) (final (startup W args addl) w h)
              (rev_append out h) = pre' ++ e :: post) as [Hin|(pre' & -> & Hloop)].
  { destruct (outcome (startup W args addl) w h) as [[]|x].
    - by apply split_app in Hsplit.
    - left. rewrite Hsplit. apply elem_of_app. right. left. }
  { by exists e. }
  exfalso.
  destruct (watchLoop_head args addl cases (final (startup W args addl) w h)
              (rev_append out h)) as [Hnil|[Hint|(rest & Htick)]].
  - rewrite Hnil in Hloop. by destruct pre'.
  - rewrite Hint in Hloop. destruct pre' as [|? [|? ?]]; by simplify_eq/=.
  - rewrite Htick in Hloop. destruct pre' as [|e' pre']; simplify_eq/=.
    apply Hpre. apply elem_of_app. right. left.
Qed.

End Watching.

(** * The claims on concrete runs *)

(** [here] finds an event in an evaluated list. *)
Ltac here := vm_compute; repeat constructor.

Lemma C3_no_suites_witness :
  (forall cases,
     WatchSpecs emptyWorld ["."] [] cases watcher0 [] =
       (Stop (Abort "Found no test suites" None), watcher0,
        [EvFindSuites ["."] (cliConfig watcher0) []])) /\
  watchLoop idleWorld ["."] [] [TickerC; InterruptChannel] watcher0 [] =
    (Stop Return, watcher0,
     [EvSelect TickerC;
      EvFindSuites ["."] (cliConfig watcher0) [suiteA; suiteB];
      EvDelta [suiteA; suiteB]
        {| NewSuites := []; ModifiedPackages := []; ModifiedSuites := [] |} trackerErrors;
      EvSelect InterruptChannel]).
Proof.
  split.
  - exact (proj1 (C3_no_suites emptyWorld ["."] [] watcher0 []) eq_refl).
  - exact (proj2 (C3_no_suites idleWorld ["."] [] watcher0 []) [InterruptChannel]
             eq_refl eq_refl).
Defined.



(** C5 as the specification words it fails: discovery returns [a], [b],
    [c], the tracker lists them as modified in the order [c], [b], [a],
    and the tick compiles and runs them in that order, which is not two
    groups in discovery order. *)
Lemma C5_discovery_order_counterexample :
  EvFindSuites ["."] (cliConfig watcher0) [suiteA; suiteB; suiteC]
    ∈ emitted (onTick reversedWorld ["."] []) watcher0 [] /\
  attempted (emitted (onTick reversedWorld ["."] []) watcher0 []) =
    [suiteC; suiteB; suiteA] /\
  ~ InDiscoveryOrder [suiteA; suiteB; suiteC]
      (attempted (emitted (onTick reversedWorld ["."] []) watcher0 [])).
Proof.
  split; [here|]. split; [reflexivity|].
  assert (attempted (emitted (onTick reversedWorld ["."] []) watcher0 []) =
            [suiteC; suiteB; suiteA]) as -> by reflexivity.
  assert (suiteA <> suiteB /\ suiteA <> suiteC /\ suiteB <> suiteC) as (Hab & Hac & Hbc)
    by (by repeat split).
  intros (new & modified & Heq & Hnew & Hmod).
  destruct new as [|x [|y [|z new]]]; simplify_eq/=;
    repeat match goal with
           | H : _ :: _ `sublist_of` _ |- _ => inversion H; clear H; simplify_eq
           | H : _ `sublist_of` [] |- _ => inversion H; clear H; simplify_eq
           end.
Qed.

Lemma C5_run_list_order_witness :
  attempted (emitted (onTick calmWorld ["."] []) watcher0 []) = [suiteA; suiteB].
Proof.
  apply (proj1 (proj2 (proj2 (C5_run_list_order calmWorld ["."] [] watcher0 [])))).
  discriminate.
Defined.

(** C6 as the specification words it fails: no seed is pinned, the watcher
    holds the seed 7, the clock shows 42, and the suite of the cycle is run
    with the seed 42. *)
Lemma C6_prior_seed_reused_counterexample :
  ~ PriorSeedReused watcher0 (emitted (runCycle calmWorld [suiteA] []) watcher0 []).
Proof.
  intros Hclaim.
  assert (EvRunCompiledSuite suiteA {| RandomSeed := 42 |}
            {| Succinct := false; Verbose := false |} []
            {| Path := "a"; PackageName := "a"; CompilationError := None; Passed := true |}
            ∈ emitted (runCycle calmWorld [suiteA] []) watcher0 []) as Hin by here.
  discriminate (Hclaim eq_refl _ _ _ _ _ Hin).
Qed.

Lemma C6_seed_decided_once_witness :
  RandomSeed (suiteConfig (final (runCycle calmWorld [suiteA; suiteB] []) watcher0 [])) = 42.
Proof.
  exact (proj2 (proj2 (C6_seed_decided_once calmWorld [suiteA; suiteB] [] watcher0 []))).
Defined.

(** C7 as the specification words it fails: the caller set the succinct
    option (to succinct) and verbose mode as well; the decision of the
    cycle makes the mode non-succinct, so the explicit choice of the
    succinct option is not respected. *)
Lemma C7_explicit_succinct_counterexample :
  ~ ExplicitSuccinctRespected verboseSuccinctWatcher
      (final (runCycle calmWorld [suiteA; suiteB] []) verboseSuccinctWatcher []).
Proof.
  intros Hclaim. specialize (Hclaim eq_refl). discriminate Hclaim.
Qed.

Lemma C7_display_mode_decided_once_witness :
  exists mode : bool,
    Succinct (reporterConfig (final (runCycle calmWorld [suiteA; suiteB] []) watcher0 [])) = mode
    /\ mode = true.
Proof.
  destruct (C7_display_mode_decided_once calmWorld [suiteA; suiteB] [] watcher0 [])
    as (mode & _ & Hfinal & _ & _ & _ & Hmany).
  exists mode. split; [exact Hfinal|].
  apply Hmany; [reflexivity|reflexivity|]. cbn. lia.
Defined.

(** C9 as the specification words it fails: exactly one suite is
    discovered, the watch expression does not compile, and [WatchSpecs]
    panics before anything is compiled. *)
Lemma C9_single_suite_panic_counterexample :
  outcome (startup badExpressionWorld ["."] []) watcher0 [] =
    Stop (Panic (WatchRegExp (cliConfig watcher0))) /\
  ~ ImmediateRunIffSingle (FindSuites badExpressionWorld [] ["."] (cliConfig watcher0))
      (emitted (startup badExpressionWorld ["."] []) watcher0 []).
Proof.
  split; [reflexivity|].
  intros [_ Hclaim]. destruct (Hclaim eq_refl) as (suite & compiled & Hin).
  unfold emitted in Hin.
  rewrite (startup_panic badExpressionWorld ["."] [] watcher0 []) in Hin by done.
  members Hin; discriminate Hin.
Qed.

Lemma C9_immediate_run_witness :
  ((exists e, e ∈ emitted (startup singleWorld ["."] []) watcher0 [] /\ startsWork e = true)
   <-> length [suiteA] = 1%nat /\ true = true) /\
  exists pre tail,
    (forall e, e ∈ pre -> startsWork e = false) /\
    emitted (startup singleWorld ["."] []) watcher0 [] =
      pre ++ (EvCompileSuite suiteA suiteA :: tail) ++ [EvNewTicker time_Second].
Proof.
  split.
  - exact (proj1 (C9_immediate_run singleWorld ["."] [] watcher0 [])).
  - destruct (proj1 (proj2 (C9_immediate_run singleWorld ["."] [] watcher0 []))
                suiteA eq_refl eq_refl) as (pre & Hpre & Hout).
    exists pre. cbn zeta in Hout.
    change (CompileSuite singleWorld (rev_append pre []) suiteA
              (goFlagsConfig (final (startup singleWorld ["."] []) watcher0 [])))
      with suiteA in Hout.
    cbn [CompilationError suiteA mkSuite] in Hout.
    destruct (WasInterrupted singleWorld _); eexists; (split; [exact Hpre|exact Hout]).
Defined.

(** * Further properties of the code *)

Section CompileAndRun.

Variable W : World.

(** X1.  [compileAndRun] never ends [WatchSpecs] and never changes the
    watcher.  It returns true exactly when it ran a suite and that run
    passed.  Whenever it runs a suite, that suite is the one
    [CompileSuite] returned, compiled without error, the run gets the
    watcher's current configuration, and the result of the run is cleaned
    up right after; nothing is cleaned up that was not run. *)
Theorem compileAndRun_contract s args w h :
  let out := emitted (compileAndRun W s args) w h in
  final (compileAndRun W s args) w h = w /\
  (exists ok, outcome (compileAndRun W s args) w h = Value ok /\
     (ok = true <-> exists e, e ∈ out /\ isPassedRun e = true)) /\
  (forall c sc rc a r, EvRunCompiledSuite c sc rc a r ∈ out ->
     CompilationError c = None /\
     out = [EvCompileSuite s c; EvWasInterrupted false;
            EvRunCompiledSuite c (suiteConfig w) (reporterConfig w) args r;
            EvCleanup r]) /\
  (forall r, EvCleanup r ∈ out ->
     exists c, EvRunCompiledSuite c (suiteConfig w) (reporterConfig w) args r ∈ out).
Proof.
  intros out. destruct (compileAndRun_trace W s args w h) as (ok & o & Hc & Ho).
  apply projections in Hc as (Hout & Hfin & Hem). subst out. rewrite Hout, Hfin, Hem.
  split; [done|]. split; [|split].
  - exists ok. split; [done|]. destruct Ho as [c e He|c He|c r He].
    + split; [done|]. intros (e' & Hin & Hp).
      repeat (apply elem_of_cons in Hin as [->|Hin]; [done|]). by apply elem_of_nil in Hin.
    + split; [done|]. intros (e' & Hin & Hp).
      repeat (apply elem_of_cons in Hin as [->|Hin]; [done|]). by apply elem_of_nil in Hin.
    + split.
      * intros Hp. exists (EvRunCompiledSuite c (suiteConfig w) (reporterConfig w) args r).
        split; [|exact Hp]. do 2 right. left.
      * intros (e' & Hin & Hp).
        repeat (apply elem_of_cons in Hin as [->|Hin]; [done|]). by apply elem_of_nil in Hin.
  - intros c sc rc a r Hin. destruct Ho as [c0 e He|c0 He|c0 r0 He];
      repeat (apply elem_of_cons in Hin as [Hin|Hin]; [try discriminate Hin|]);
      try by apply elem_of_nil in Hin.
    by simplify_eq.
  - intros r Hin. destruct Ho as [c0 e He|c0 He|c0 r0 He];
      repeat (apply elem_of_cons in Hin as [Hin|Hin]; [try discriminate Hin|]);
      try by apply elem_of_nil in Hin.
    simplify_eq. exists c0. do 2 right. left.
Qed.

End CompileAndRun.

(** ** Counting the runs of a cycle *)

Lemma passedRuns_app (o1 o2 : list Event) :
  passedRuns (o1 ++ o2) = (passedRuns o1 + passedRuns o2)%nat.
Proof. induction o1 as [|e o1 IH]; [done|]. cbn. rewrite IH. lia. Qed.

Lemma passedRuns_none (o : list Event) :
  (forall e, e ∈ o -> isPassedRun e = false) -> passedRuns o = 0%nat.
Proof.
  induction o as [|e o IH]; intros H; [done|].
  cbn. rewrite (H e) by left. rewrite IH; [done|]. intros e' He'. apply H. by right.
Qed.

Lemma SuiteTrace_passedRuns w args s ok o :
  SuiteTrace w args s ok o -> passedRuns o = if ok then 1%nat else 0%nat.
Proof. destruct 1; [done|done|]. cbn. by destruct (Passed r). Qed.

(** The loop counts a run as passed at most once per suite, and [passed]
    stays true exactly when every suite of the list was run and passed. *)
Lemma CycleTrace_passedRuns w args suites p r out :
  CycleTrace w args suites p r out ->
  (passedRuns out <= length suites)%nat /\
  (r = Stop Return -> (passedRuns out < length suites)%nat) /\
  (forall b, r = Value b ->
     (b = true <-> p = true /\ passedRuns out = length suites)).
Proof.
  induction 1 as [|s0 rest p|s0 rest p ok o r out Ho Hct (IHle & IHstop & IHval)].
  - split; [done|]. split; [done|]. intros b [= <-]. by split; [|intros [-> _]].
  - cbn. split; [lia|]. split; [lia|done].
  - change (EvWasInterrupted false :: EvWillRun s0 :: o ++ out)
      with ([EvWasInterrupted false; EvWillRun s0] ++ o ++ out).
    rewrite !passedRuns_app, (SuiteTrace_passedRuns _ _ _ _ _ Ho). cbn [passedRuns isPassedRun length].
    split; [destruct ok; lia|]. split.
    + intros Hr. specialize (IHstop Hr). destruct ok; lia.
    + intros b Hb. rewrite (IHval b Hb), andb_true_iff. destruct ok; split; intros H.
      * split; [tauto|]. destruct H as [[_ ?] ?]. lia.
      * split; [split; [done|tauto]|]. lia.
      * destruct H as [[? _] _]. done.
      * lia.
Qed.


Lemma closingLine_inj p q : closingLine p = closingLine q -> p = q.
Proof. destruct p, q; intros H; first [done | vm_compute in H; discriminate H]. Qed.

Section Closing.

Variable W : World.

(** X2.  The line that closes a cycle is green only when every suite of
    the run list was run and reported as passed, and red only when at
    least one was not (it did not compile, the interrupt was seen after
    its compile, or its run failed).  The cycle prints no closing line
    exactly when it ends [WatchSpecs] by the [return] that follows an
    interrupt seen before a suite. *)
Theorem runCycle_closing_line suites args w h :
  let out := emitted (runCycle W suites args) w h in
  (closingLine true ∈ out -> passedRuns out = length suites) /\
  (closingLine false ∈ out -> (passedRuns out < length suites)%nat) /\
  (outcome (runCycle W suites args) w h = Stop Return <->
   forall p, closingLine p ∉ out).
Proof.
  intros out.
  destruct (runCycle_parts W suites args w h) as (o3 & Hem & _ & Hct & Hcase).
  cbn zeta in Hem, Hct, Hcase.
  set (w2 := final (decisions W (len suites)) w h) in *.
  set (o1 := if WasSet (flags w) "seed" then [] else [EvNow (Now_Unix W h)]) in *.
  set (o2 := emitted (runSuites W suites args true) w2 (rev_append o1 h)) in *.
  destruct (CycleTrace_passedRuns _ _ _ _ _ _ Hct) as (Hle & Hstop & Hval).
  assert (passedRuns o1 = 0%nat) as Hp1 by (subst o1; by destruct (WasSet _ _)).
  assert (forall p, closingLine p ∈ o1 ++ o2 -> False) as Hfree.
  { intros p [Hin|Hin]%elem_of_app.
    - subst o1. destruct (WasSet _ _); members Hin. discriminate Hin.
    - by apply (CycleTrace_kinds _ _ _ _ _ _ _ Hct) in Hin. }
  subst out. rewrite Hem, !passedRuns_app, Hp1.
  destruct (outcome (runSuites W suites args true) w2 (rev_append o1 h)) as [passed|e].
  - destruct Hcase as (msgs & err & -> & Hout).
    assert (passedRuns (closingLine passed :: EvFinalize suites msgs err ::
              match err with Some _ => [] | None => EvOutput ∘ Println <$> msgs end) = 0%nat)
      as ->.
    { apply passedRuns_none. intros e Hin. destruct err; members Hin; done. }
    assert (forall p, closingLine p ∈ o1 ++ o2 ++ closingLine passed ::
              EvFinalize suites msgs err ::
              match err with Some _ => [] | None => EvOutput ∘ Println <$> msgs end ->
            p = passed) as Hline.
    { intros p Hin. rewrite app_assoc in Hin. apply elem_of_app in Hin as [Hin|Hin].
      { by destruct (Hfree p). }
      apply elem_of_cons in Hin as [Hin|Hin]; [by apply closingLine_inj|].
      destruct err; members Hin; discriminate Hin. }
    split; [|split].
    + intros <-%Hline. destruct (Hval true eq_refl) as [[_ ->] _]; [done|]. lia.
    + intros <-%Hline. destruct (decide (passedRuns o2 = length suites)) as [Heq|Hne]; [|lia].
      by destruct (Hval false eq_refl) as [_ Habs]; specialize (Habs (conj eq_refl Heq)).
    + rewrite Hout. split; [by destruct err|].
      intros Hnone. destruct (Hnone passed).
      rewrite app_assoc. apply elem_of_app. right. left.
  - destruct Hcase as (-> & -> & Hout). rewrite !app_nil_r.
    specialize (Hstop eq_refl).
    split; [|split].
    + intros Hin. by destruct (Hfree true).
    + intros _. cbn. lia.
    + split; [|done]. intros _ p Hin. by destruct (Hfree p).
Qed.

End Closing.

Section Tick.

Variable W : World.

Lemma isFprintln_kinds (outs : list Event) e :
  Forall isFprintln outs -> e ∈ outs ->
  isFinalize e = false /\ isDiscovery e = false /\ isMark e = false /\ isNow e = false /\
  isPassedRun e = false /\ attempted [e] = [] /\
  (forall s sc rc a r, e <> EvRunCompiledSuite s sc rc a r).
Proof.
  intros Houts Hin. rewrite Forall_forall in Houts. apply Houts in Hin.
  by destruct e as [| | | | | | | | | | | |[]].
Qed.

(** X3.  A tick hands the profiles and reports to
    [FinalizeProfilesAndReportsForSuites] at most once, and then with the
    run list as it was collected (the suites as the tracker listed them,
    not what compiling or running them returned), after every suite of the
    list has been compiled.  Nothing but the messages of the finalization
    follows, and none of them when it failed.  A tick with an empty run
    list, or one that ends by the [return] after an interrupt, finalizes
    nothing. *)
Theorem onTick_finalizes_once args addl w h :
  let found := FindSuites W h args (cliConfig w) in
  let delta := (DeltaTracker_Delta W (EvFindSuites args (cliConfig w) found :: h) found).1 in
  let runList := (Suite_Suite <$> NewSuites delta) ++ (Suite_Suite <$> ModifiedSuites delta) in
  let out := emitted (onTick W args addl) w h in
  (runList = [] \/ outcome (onTick W args addl) w h = Stop Return ->
   forall e, e ∈ out -> isFinalize e = false) /\
  (runList <> [] -> outcome (onTick W args addl) w h <> Stop Return ->
   exists pre msgs err,
     out = pre ++ EvFinalize runList msgs err ::
           match err with Some _ => [] | None => EvOutput ∘ Println <$> msgs end /\
     attempted pre = runList /\
     (forall e, e ∈ pre -> isFinalize e = false)).
Proof.
  intros found delta runList out.
  destruct (onTick_parts W args addl w h) as (outs & Houts & Hcollect & Htick).
  cbn zeta in Hcollect, Htick. fold found delta runList in Hcollect, Htick.
  assert (forall e, e ∈ emitted (collectSuites W args) w h ->
            isFinalize e = false /\ attempted [e] = []) as Hc.
  { rewrite Hcollect. intros e Hin.
    do 2 (apply elem_of_cons in Hin as [->|Hin]; [done|]).
    by destruct (isFprintln_kinds _ _ Houts Hin) as (? & _ & _ & _ & _ & ? & _). }
  clearbody runList.
  destruct (decide (runList = [])) as [->|Hne].
  { apply projections in Htick as (_ & _ & Hem). subst out. rewrite Hem.
    split; [|done]. intros _ e Hin. by apply Hc. }
  set (h0 := rev_append (emitted (collectSuites W args) w h) h) in *.
  assert (onTick W args addl w h =
            (outcome (runCycle W runList addl) w h0, final (runCycle W runList addl) w h0,
             emitted (collectSuites W args) w h ++ emitted (runCycle W runList addl) w h0))
    as Htick' by (by destruct runList).
  apply projections in Htick' as (Hout & _ & Hem). subst out. rewrite Hout, Hem.
  destruct (runCycle_parts W runList addl w h0) as (o3 & Hcyc & _ & Hct & Hcase).
  cbn zeta in Hcyc, Hct, Hcase. rewrite Hcyc.
  set (w2 := final (decisions W (len runList)) w h0) in *.
  set (o1 := if WasSet (flags w) "seed" then [] else [EvNow (Now_Unix W h0)]) in *.
  set (o2 := emitted (runSuites W runList addl true) w2 (rev_append o1 h0)) in *.
  assert (forall e, e ∈ o1 ++ o2 -> isFinalize e = false) as Hfree.
  { intros e [Hin|Hin]%elem_of_app.
    - subst o1. destruct (WasSet _ _); members Hin. done.
    - apply (CycleTrace_kinds _ _ _ _ _ _ _ Hct) in Hin.
      by destruct e as [| | | | | | | | | | | |[]]. }
  assert (attempted o1 = []) as Ha1 by (subst o1; by destruct (WasSet _ _)).
  destruct (CycleTrace_attempted _ _ _ _ _ _ Hct) as [_ Hall].
  destruct (outcome (runSuites W runList addl true) w2 (rev_append o1 h0)) as [passed|e].
  - destruct Hcase as (msgs & err & -> & Hcase). rewrite Hcase.
    split.
    { intros [Hnil|Hret]; [done|by destruct err]. }
    intros _ _.
    exists (emitted (collectSuites W args) w h ++ o1 ++ o2 ++ [closingLine passed]), msgs, err.
    split; [by rewrite <- !app_assoc|]. split.
    + rewrite !attempted_app, Ha1, (Hall passed eq_refl).
      rewrite (attempted_nil_iff (emitted (collectSuites W args) w h))
        by (intros e Hin; by apply Hc).
      cbn. by rewrite app_nil_r.
    + intros e Hin. apply elem_of_app in Hin as [Hin|Hin]; [by apply Hc|].
      rewrite app_assoc in Hin. apply elem_of_app in Hin as [Hin|Hin]; [by apply Hfree|].
      members Hin. done.
  - destruct Hcase as (-> & -> & ->). rewrite app_nil_r. split; [|done].
    intros _ e0 Hin. apply elem_of_app in Hin as [Hin|Hin]; [by apply Hc|by apply Hfree].
Qed.

(** X4.  A tick does nothing beyond the discovery and the call of the
    tracker (it prints nothing, leaves the watcher as it is and falls
    through to the next [select]) exactly when the tracker reports neither
    a new nor a modified suite. *)
Theorem onTick_idle args addl w h :
  let found := FindSuites W h args (cliConfig w) in
  let r := DeltaTracker_Delta W (EvFindSuites args (cliConfig w) found :: h) found in
  NewSuites r.1 = [] /\ ModifiedSuites r.1 = [] <->
  onTick W args addl w h =
    (Value tt, w, [EvFindSuites args (cliConfig w) found; EvDelta found r.1 r.2]).
Proof.
  intros found r.
  destruct (onTick_parts W args addl w h) as (outs & Houts & Hcollect & Htick).
  cbn zeta in Hcollect, Htick. fold found r in Hcollect, Htick.
  destruct (collectSuites_run W args w h) as (outs' & Hrun & Hnil & _).
  cbn zeta in Hrun, Hnil. fold found r in Hrun, Hnil.
  apply projections in Hrun as (_ & _ & Hcollect').
  rewrite Hcollect in Hcollect'. injection Hcollect' as <-.
  split.
  - intros [Hnew Hmod]. rewrite Htick, Hnew, Hmod. cbn [fmap list_fmap app].
    by rewrite Hcollect, (Hnil Hnew Hmod).
  - intros Hidle.
    destruct ((Suite_Suite <$> NewSuites r.1) ++ (Suite_Suite <$> ModifiedSuites r.1))
      as [|s0 l] eqn:E.
    { apply app_eq_nil in E as [E1 E2]. by apply fmap_nil_inv in E1, E2. }
    exfalso. rewrite Htick in Hidle.
    set (h0 := rev_append (emitted (collectSuites W args) w h) h) in *.
    destruct (runCycle_parts W (s0 :: l) addl w h0) as (o3 & Hcyc & _ & Hct & _).
    cbn zeta in Hcyc, Hct.
    pose proof (f_equal snd Hidle) as Hem. cbn [snd] in Hem.
    rewrite Hcyc, Hcollect in Hem.
    remember (emitted (runSuites W (s0 :: l) addl true) _ _) as o2 eqn:Ho2. clear Ho2.
    apply (f_equal length) in Hem. rewrite !length_app in Hem.
    inversion Hct; subst; cbn [length] in Hem; lia.
Qed.

End Tick.

(** ** The whole of [WatchSpecs] *)

Lemma sameSettings_refl w : sameSettings w w.
Proof. by repeat split. Qed.

Lemma sameSettings_trans w1 w2 w3 :
  sameSettings w1 w2 -> sameSettings w2 w3 -> sameSettings w1 w3.
Proof.
  intros (H1 & H2 & H3 & H4) (H1' & H2' & H3' & H4').
  repeat split; congruence.
Qed.

Section Whole.

Variable W : World.

(** What the two decisions change of the watcher. *)
Lemma decisions_frame n w h :
  let w2 := final (decisions W n) w h in
  sameSettings w w2 /\
  (WasSet (flags w) "seed" = true -> suiteConfig w2 = suiteConfig w) /\
  (Verbose (reporterConfig w) = false -> WasSet (flags w) "succinct" = true ->
   reporterConfig w2 = reporterConfig w).
Proof.
  cbn zeta.
  assert (final (decisions W n) w h =
            final (computeSuccinctMode n) (final (updateSeed W) w h) []) as ->
    by (unfold final at 1; by rewrite decisions_run).
  rewrite !computeSuccinctMode_final.
  assert (final (updateSeed W) w h =
            if WasSet (flags w) "seed" then w else set_RandomSeed (Now_Unix W h) w) as ->
    by (unfold final; rewrite updateSeed_run; by destruct (WasSet (flags w) "seed")).
  unfold sameSettings.
  destruct (WasSet (flags w) "seed"); cbn;
    destruct (Verbose (reporterConfig w)) eqn:?, (WasSet (flags w) "succinct"),
      (n =? 1), (1 <? n); cbn; repeat split; congruence.
Qed.

(** The events of a tick, with what they carry of the watcher. *)
Lemma onTick_events args addl w h e :
  e ∈ emitted (onTick W args addl) w h ->
  let w' := final (onTick W args addl) w h in
  match e with
  | EvFindSuites a c _ => a = args /\ c = cliConfig w
  | EvRunCompiledSuite _ sc rc a _ => sc = suiteConfig w' /\ rc = reporterConfig w' /\ a = addl
  | EvNow _ => WasSet (flags w) "seed" = false
  | EvOutput (Printf _ _) | EvNewDeltaTracker _ _ | EvNewTicker _ | EvSelect _ => False
  | _ => True
  end.
Proof.
  destruct (onTick_parts W args addl w h) as (outs & Houts & Hcollect & Htick).
  cbn zeta in Hcollect, Htick.
  assert (forall e, e ∈ emitted (collectSuites W args) w h ->
            match e with
            | EvFindSuites a c _ => a = args /\ c = cliConfig w
            | EvDelta _ _ _ => True
            | _ => isFprintln e
            end) as Hc.
  { rewrite Hcollect. intros e' Hin.
    do 2 (apply elem_of_cons in Hin as [->|Hin]; [done|]).
    rewrite Forall_forall in Houts. apply Houts in Hin.
    by destruct e' as [| | | | | | | | | | | |[]]. }
  destruct (_ ++ _) as [|s0 l] in Htick.
  { apply projections in Htick as (_ & -> & ->). intros Hin. cbn zeta.
    apply Hc in Hin. by destruct e as [| | | | | | | | | | | |[]]. }
  set (h0 := rev_append (emitted (collectSuites W args) w h) h) in *.
  apply projections in Htick as (_ & -> & ->).
  destruct (runCycle_parts W (s0 :: l) addl w h0) as (o3 & -> & -> & Hct & Hcase).
  cbn zeta in Hct, Hcase |- *.
  intros Hin. apply elem_of_app in Hin as [Hin|Hin].
  { apply Hc in Hin. by destruct e as [| | | | | | | | | | | |[]]. }
  apply elem_of_app in Hin as [Hin|Hin].
  { destruct (WasSet (flags w) "seed") eqn:Hseed; members Hin. done. }
  apply elem_of_app in Hin as [Hin|Hin].
  { pose proof (CycleTrace_kinds _ _ _ _ _ _ _ Hct Hin) as Hkind.
    destruct e as [| | | | | | | | | | | |[]]; try done.
    by apply (CycleTrace_runs_config _ _ _ _ _ _ _ _ _ _ _ Hct Hin). }
  destruct (outcome (runSuites W (s0 :: l) addl true) _ _).
  - destruct Hcase as (msgs & [err|] & -> & _); members Hin; done.
  - destruct Hcase as (-> & _). by apply elem_of_nil in Hin.
Qed.

(** A tick leaves the watcher as it is or as the two decisions leave it. *)
Lemma onTick_final args addl w h :
  final (onTick W args addl) w h = w \/
  exists n h0, final (onTick W args addl) w h = final (decisions W n) w h0.
Proof.
  destruct (onTick_parts W args addl w h) as (outs & Houts & Hcollect & Htick).
  cbn zeta in Htick.
  destruct (_ ++ _) as [|s0 l] in Htick.
  - left. by apply projections in Htick as (_ & -> & _).
  - right. apply projections in Htick as (_ & -> & _).
    destruct (runCycle_parts W (s0 :: l) addl w
                (rev_append (emitted (collectSuites W args) w h) h)) as (o3 & _ & -> & _).
    by eexists _, _.
Qed.

(** The events of the part before the loop. *)
Lemma startup_events args addl w h e :
  e ∈ emitted (startup W args addl) w h ->
  let w' := final (startup W args addl) w h in
  match e with
  | EvFindSuites a c _ => a = args /\ c = cliConfig w
  | EvRunCompiledSuite _ sc rc a _ =>
      sc = suiteConfig w' /\ rc = reporterConfig w /\ a = addl /\
      length (FindSuites W h args (cliConfig w)) = 1%nat
  | EvNow _ => WasSet (flags w) "seed" = false
  | EvNewDeltaTracker _ _ | EvDelta _ _ _ | EvNewTicker _
  | EvCompileSuite _ _ | EvWasInterrupted _ | EvCleanup _
  | EvOutput (Printf _ _) | EvOutput (Println _) => True
  | _ => False
  end.
Proof.
  assert (forall e, e ∈ introduction W args w h ->
            match e with
            | EvFindSuites a c _ => a = args /\ c = cliConfig w
            | EvRunCompiledSuite _ _ _ _ _ | EvNow _ => False
            | EvNewDeltaTracker _ _ | EvDelta _ _ _ | EvNewTicker _
            | EvCompileSuite _ _ | EvWasInterrupted _ | EvCleanup _
            | EvOutput (Printf _ _) | EvOutput (Println _) => True
            | _ => False
            end) as Hintro.
  { intros e' Hin. apply introduction_kinds in Hin.
    by destruct e' as [| | | | | | | | | | | |[]]. }
  destruct (startup_cases W args addl w h)
    as [[Hnil Hrun]|[(Hne & Hre & o & Hrun & Hpre)|[(Hlen & Hne & Hre & Hrun)|
        (s & ok & oc & Hfound & Hre & Hoc & Hrun)]]];
    apply projections in Hrun as (_ & -> & ->); cbn zeta; intros Hin.
  - members Hin. done.
  - destruct Hpre as [post Hpost].
    assert (e ∈ introduction W args w h) as Hin'
      by (rewrite Hpost; apply elem_of_app; by left).
    apply Hintro in Hin'. by destruct e as [| | | | | | | | | | | |[]].
  - apply elem_of_app in Hin as [Hin|Hin]; [|members Hin; done].
    apply Hintro in Hin. by destruct e as [| | | | | | | | | | | |[]].
  - apply elem_of_app in Hin as [Hin|Hin].
    { apply Hintro in Hin. by destruct e as [| | | | | | | | | | | |[]]. }
    apply elem_of_app in Hin as [Hin|Hin].
    { unfold emitted in Hin. rewrite updateSeed_run in Hin.
      destruct (WasSet (flags w) "seed") eqn:Hseed; members Hin. done. }
    apply elem_of_app in Hin as [Hin|Hin]; [|members Hin; done].
    assert (reporterConfig (final (updateSeed W) w
              (rev_append (introduction W args w h) h)) = reporterConfig w) as Hrc.
    { unfold final. rewrite updateSeed_run. by destruct (WasSet _ _). }
    destruct e as [| | | | | | | | | | | |[]];
      try (by destruct Hoc; members Hin; try discriminate Hin).
    destruct (SuiteTrace_runs_config _ _ _ _ _ _ _ _ _ _ Hoc Hin) as (-> & -> & ->).
    by rewrite Hfound.
Qed.

(** What the part before the loop changes of the watcher. *)
Lemma startup_frame args addl w h :
  let w' := final (startup W args addl) w h in
  sameSettings w w' /\
  reporterConfig w' = reporterConfig w /\
  (WasSet (flags w) "seed" = true -> suiteConfig w' = suiteConfig w).
Proof.
  assert (forall h', sameSettings w (final (updateSeed W) w h') /\
            reporterConfig (final (updateSeed W) w h') = reporterConfig w /\
            (WasSet (flags w) "seed" = true ->
             suiteConfig (final (updateSeed W) w h') = suiteConfig w)) as Hseed.
  { intros h'. unfold final. rewrite updateSeed_run.
    by destruct (WasSet (flags w) "seed"). }
  destruct (startup_cases W args addl w h)
    as [[Hnil Hrun]|[(Hne & Hre & o & Hrun & Hpre)|[(Hlen & Hne & Hre & Hrun)|
        (s & ok & oc & Hfound & Hre & Hoc & Hrun)]]];
    apply projections in Hrun as (_ & -> & _); cbn zeta;
    first [apply Hseed | by split; [apply sameSettings_refl|]].
Qed.

(** Whatever holds of the watcher and of the events tick by tick holds of
    the loop. *)
Lemma watchLoop_invariant (I : SpecWatcher -> Prop) (P : Event -> Prop) args addl :
  (forall c, P (EvSelect c)) ->
  (forall w h, I w ->
     I (final (onTick W args addl) w h) /\
     forall e, e ∈ emitted (onTick W args addl) w h -> P e) ->
  forall cases w h, I w ->
    I (final (watchLoop W args addl cases) w h) /\
    forall e, e ∈ emitted (watchLoop W args addl cases) w h -> P e.
Proof.
  intros Hsel Htick. induction cases as [|[] later IH]; intros w h Hw.
  - split; [done|]. intros e Hin. by apply elem_of_nil in Hin.
  - destruct (Htick w (EvSelect TickerC :: h) Hw) as [HI HP].
    unfold final at 1, emitted at 1. rewrite watchLoop_tick. cbn zeta.
    destruct (outcome (onTick W args addl) w (EvSelect TickerC :: h)); cbn [fst snd].
    + destruct (IH _ (rev_append (emitted (onTick W args addl) w (EvSelect TickerC :: h))
                        (EvSelect TickerC :: h)) HI) as [HI' HP'].
      split; [done|]. intros e Hin.
      apply elem_of_cons in Hin as [->|Hin]; [done|].
      apply elem_of_app in Hin as [Hin|Hin]; [by apply HP|by apply HP'].
    + split; [done|]. intros e0 Hin.
      apply elem_of_cons in Hin as [->|Hin]; [done|]. by apply HP.
  - unfold final, emitted. rewrite watchLoop_interrupt. cbn [fst snd].
    split; [done|]. intros e Hin. members Hin. done.
Qed.

Lemma WatchSpecs_invariant (I : SpecWatcher -> Prop) (P : Event -> Prop) args addl w h :
  (forall c, P (EvSelect c)) ->
  (forall w h, I w ->
     I (final (onTick W args addl) w h) /\
     forall e, e ∈ emitted (onTick W args addl) w h -> P e) ->
  I (final (startup W args addl) w h) ->
  (forall e, e ∈ emitted (startup W args addl) w h -> P e) ->
  forall cases,
    I (final (WatchSpecs W args addl cases) w h) /\
    forall e, e ∈ emitted (WatchSpecs W args addl cases) w h -> P e.
Proof.
  intros Hsel Htick HI HP cases.
  unfold final at 1, emitted at 1. rewrite WatchSpecs_run.
  destruct (outcome (startup W args addl) w h); [|done].
  cbn zeta. cbn [fst snd].
  destruct (watchLoop_invariant I P args addl Hsel Htick cases _
              (rev_append (emitted (startup W args addl) w h) h) HI) as [HI' HP'].
  split; [done|]. intros e Hin.
  apply elem_of_app in Hin as [Hin|Hin]; [by apply HP|by apply HP'].
Qed.

End Whole.

Lemma last_cons_Some {A} (x y : A) (l : list A) :
  last l = Some y -> last (x :: l) = Some y.
Proof. intros H. change (x :: l) with ([x] ++ l). by rewrite last_app, H. Qed.

Section Watch.

Variable W : World.

(** How the loop can end. *)
Lemma watchLoop_exits args addl cases w h :
  let out := emitted (watchLoop W args addl cases) w h in
  match outcome (watchLoop W args addl cases) w h with
  | Value _ => InterruptChannel ∉ cases
  | Stop Return =>
      last out = Some (EvSelect InterruptChannel) \/ last out = Some (EvWasInterrupted true)
  | Stop (Abort message err) =>
      message = "could not finalize profiles:" /\
      exists suites msgs e, err = Some e /\ last out = Some (EvFinalize suites msgs (Some e))
  | Stop (Panic _) => False
  end.
Proof.
  revert w h. induction cases as [|[] later IH]; intros w h; cbn zeta.
  - cbn. apply not_elem_of_nil.
  - unfold outcome at 1, emitted. rewrite watchLoop_tick. cbn zeta.
    set (h1 := EvSelect TickerC :: h).
    destruct (onTick_outcome W args addl w h1)
      as [Ho|[[Ho Hlast]|(suites & msgs & err & Ho & Hlast)]]; rewrite Ho; cbn [fst snd].
    + specialize (IH (final (onTick W args addl) w h1)
                     (rev_append (emitted (onTick W args addl) w h1) h1)).
      cbn zeta in IH.
      destruct (outcome (watchLoop W args addl later) _ _) as [[]|[|message e|what]].
      * intros Hin. apply elem_of_cons in Hin as [Hin|Hin]; [discriminate Hin|done].
      * destruct IH as [IH|IH]; [left|right];
          by apply last_cons_Some, last_app_Some'.
      * destruct IH as (-> & suites & msgs & e' & -> & IH). split; [done|].
        exists suites, msgs, e'. split; [done|]. by apply last_cons_Some, last_app_Some'.
      * done.
    + right. by apply last_cons_Some.
    + split; [done|]. exists suites, msgs, err. split; [done|]. by apply last_cons_Some.
  - by left.
Qed.

(** X5.  [WatchSpecs] ends in one of four ways only.  It returns only on
    an interrupt: the interrupt case of the [select] fired, or the handler
    reported the interrupt before a suite of a cycle.  It aborts only
    because the first discovery found no suite (and then has done nothing
    else) or because the profiles and reports of a cycle could not be
    finalized.  It panics only on a watch expression that does not
    compile; indexing the discovered suites never panics.  Otherwise it is
    still watching: suites were found, the expression compiled and no
    interrupt case has fired. *)
Theorem WatchSpecs_exits args addl cases w h :
  let found := FindSuites W h args (cliConfig w) in
  let out := emitted (WatchSpecs W args addl cases) w h in
  match outcome (WatchSpecs W args addl cases) w h with
  | Value _ =>
      found <> [] /\ regexp_compiles W (WatchRegExp (cliConfig w)) = true /\
      InterruptChannel ∉ cases
  | Stop Return =>
      last out = Some (EvSelect InterruptChannel) \/ last out = Some (EvWasInterrupted true)
  | Stop (Abort message err) =>
      (message = "Found no test suites" /\ err = None /\ found = [] /\
       out = [EvFindSuites args (cliConfig w) []]) \/
      (message = "could not finalize profiles:" /\
       exists suites msgs e,
         err = Some e /\ last out = Some (EvFinalize suites msgs (Some e)))
  | Stop (Panic what) =>
      what = WatchRegExp (cliConfig w) /\ regexp_compiles W what = false /\ found <> []
  end.
Proof.
  intros found out. subst found out.
  unfold outcome at 1, emitted. rewrite WatchSpecs_run.
  destruct (startup_cases W args addl w h)
    as [[Hnil Hrun]|[(Hne & Hre & o & Hrun & Hpre)|[(Hlen & Hne & Hre & Hrun)|
        (s & ok & oc & Hfound & Hre & Hoc & Hrun)]]].
  - apply projections in Hrun as (Ho & Hf & He). rewrite Ho.
    unfold outcome. rewrite (startup_empty W args addl w h Hnil). cbn [fst snd].
    by left.
  - pose proof Hrun as Hrun'. apply projections in Hrun' as (Ho & _ & _).
    rewrite Ho, Hrun. cbn [fst snd]. done.
  - pose proof Hrun as Hrun'. apply projections in Hrun' as (Ho & Hf & He).
    rewrite Ho. cbn zeta. cbn [fst snd].
    pose proof (watchLoop_exits args addl cases (final (startup W args addl) w h)
                  (rev_append (emitted (startup W args addl) w h) h)) as Hloop.
    cbn zeta in Hloop.
    destruct (outcome (watchLoop W args addl cases) _ _) as [[]|[|message e|what]].
    + done.
    + destruct Hloop as [Hl|Hl]; [left|right]; by apply last_app_Some'.
    + right. destruct Hloop as (-> & suites & msgs & e' & -> & Hl). split; [done|].
      exists suites, msgs, e'. split; [done|]. by apply last_app_Some'.
    + done.
  - assert (FindSuites W h args (cliConfig w) <> []) as Hne by by rewrite Hfound.
    pose proof Hrun as Hrun'. apply projections in Hrun' as (Ho & Hf & He).
    rewrite Ho. cbn zeta. cbn [fst snd].
    pose proof (watchLoop_exits args addl cases (final (startup W args addl) w h)
                  (rev_append (emitted (startup W args addl) w h) h)) as Hloop.
    cbn zeta in Hloop.
    destruct (outcome (watchLoop W args addl cases) _ _) as [[]|[|message e|what]].
    + done.
    + destruct Hloop as [Hl|Hl]; [left|right]; by apply last_app_Some'.
    + right. destruct Hloop as (-> & suites & msgs & e' & -> & Hl). split; [done|].
      exists suites, msgs, e'. split; [done|]. by apply last_app_Some'.
    + done.
Qed.

(** X6.  [WatchSpecs] never changes the CLI configuration, the go flags,
    the flag set or the verbose flag of the watcher, and keeps the
    reporter configuration as it is when the caller set the succinct
    option and is not verbose.  Every discovery is made with the
    arguments and the CLI configuration the caller gave, and every run
    gets the additional arguments the caller gave and the caller's
    verbose flag. *)
Theorem WatchSpecs_frame args addl cases w h :
  let w' := final (WatchSpecs W args addl cases) w h in
  let out := emitted (WatchSpecs W args addl cases) w h in
  sameSettings w w' /\
  (Verbose (reporterConfig w) = false -> WasSet (flags w) "succinct" = true ->
   reporterConfig w' = reporterConfig w) /\
  (forall a c found, EvFindSuites a c found ∈ out -> a = args /\ c = cliConfig w) /\
  (forall s sc rc a r, EvRunCompiledSuite s sc rc a r ∈ out ->
     a = addl /\ Verbose rc = Verbose (reporterConfig w)).
Proof.
  intros w' out.
  pose (I := fun w1 : SpecWatcher =>
          sameSettings w w1 /\
          (Verbose (reporterConfig w) = false -> WasSet (flags w) "succinct" = true ->
           reporterConfig w1 = reporterConfig w)).
  pose (P := fun e : Event =>
          match e with
          | EvFindSuites a c _ => a = args /\ c = cliConfig w
          | EvRunCompiledSuite _ _ rc a _ =>
              a = addl /\ Verbose rc = Verbose (reporterConfig w)
          | _ => True
          end).
  destruct (WatchSpecs_invariant W I P args addl w h) with (cases := cases)
    as [[Hsame Hrc] Hevents].
  - done.
  - intros w1 h1 [Hs1 Hrc1].
    assert (I (final (onTick W args addl) w1 h1)) as HI.
    { destruct (onTick_final W args addl w1 h1) as [->|(n & h0 & ->)]; [done|].
      destruct (decisions_frame W n w1 h0) as (Hs2 & _ & Hrc2).
      split; [by eapply sameSettings_trans|].
      intros Hv Hx. destruct Hs1 as (_ & _ & Hfl & Hverb).
      rewrite Hrc2, Hrc1; congruence. }
    split; [done|]. intros e Hin.
    pose proof (onTick_events W args addl w1 h1 e Hin) as He. cbn zeta in He.
    destruct HI as [(_ & _ & _ & Hverb) _]. destruct Hs1 as (Hcli & _).
    destruct e as [| | | | | | | | | | | |[]]; try done.
    + destruct He as [-> ->]. done.
    + by destruct He as (_ & -> & ->).
  - destruct (startup_frame W args addl w h) as (Hs & Hrc & _). by split.
  - intros e Hin.
    pose proof (startup_events W args addl w h e Hin) as He. cbn zeta in He.
    destruct e as [| | | | | | | | | | | |[]]; try done.
    by destruct He as (_ & -> & -> & _).
  - subst w' out. split; [done|]. split; [done|]. split.
    + intros a c found Hin. exact (Hevents _ Hin).
    + intros s sc rc a r Hin. exact (Hevents _ Hin).
Qed.

(** X7.  When the caller pinned the seed, [WatchSpecs] never reads the
    clock, runs every suite, at startup and in every cycle, with the
    caller's suite configuration, and leaves that configuration as it
    is. *)
Theorem WatchSpecs_pinned_seed args addl cases w h :
  WasSet (flags w) "seed" = true ->
  let out := emitted (WatchSpecs W args addl cases) w h in
  suiteConfig (final (WatchSpecs W args addl cases) w h) = suiteConfig w /\
  (forall e, e ∈ out -> isNow e = false) /\
  (forall s sc rc a r, EvRunCompiledSuite s sc rc a r ∈ out -> sc = suiteConfig w).
Proof.
  intros Hseed out.
  pose (I := fun w1 : SpecWatcher => flags w1 = flags w /\ suiteConfig w1 = suiteConfig w).
  pose (P := fun e : Event =>
          match e with
          | EvNow _ => False
          | EvRunCompiledSuite _ sc _ _ _ => sc = suiteConfig w
          | _ => True
          end).
  destruct (WatchSpecs_invariant W I P args addl w h) with (cases := cases)
    as [[_ Hsc] Hevents].
  - done.
  - intros w1 h1 [Hfl Hsc].
    assert (I (final (onTick W args addl) w1 h1)) as HI.
    { destruct (onTick_final W args addl w1 h1) as [->|(n & h0 & ->)]; [done|].
      destruct (decisions_frame W n w1 h0) as ((_ & _ & Hfl2 & _) & Hsc2 & _).
      split; [congruence|]. rewrite Hsc2; [done|]. by rewrite Hfl. }
    split; [done|]. intros e Hin.
    pose proof (onTick_events W args addl w1 h1 e Hin) as He. cbn zeta in He.
    destruct HI as [_ Hsc'].
    destruct e as [| | | | | | | | | | | |[]]; try done.
    + by destruct He as (-> & _).
    + rewrite Hfl in He. congruence.
  - destruct (startup_frame W args addl w h) as ((_ & _ & Hfl & _) & _ & Hsc).
    split; [done|by apply Hsc].
  - intros e Hin.
    pose proof (startup_events W args addl w h e Hin) as He. cbn zeta in He.
    destruct (startup_frame W args addl w h) as (_ & _ & Hsc).
    destruct e as [| | | | | | | | | | | |[]]; try done.
    + destruct He as (-> & _). by apply Hsc.
    + congruence.
  - subst out. split; [done|]. split.
    + intros e Hin. specialize (Hevents _ Hin). by destruct e.
    + intros s sc rc a r Hin. exact (Hevents _ Hin).
Qed.

(** X8.  The run that [WatchSpecs] makes at once for a single discovered
    suite is not prepared like the runs of a cycle: the tracker is not
    told that the suite will run, the display mode is not decided (the run
    gets the reporter configuration as the caller gave it, and the watcher
    keeps it), no closing line is written and no profiles and reports are
    finalized. *)
Theorem startup_run_unprepared args addl w h :
  let out := emitted (startup W args addl) w h in
  reporterConfig (final (startup W args addl) w h) = reporterConfig w /\
  (forall e, e ∈ out -> isMark e = false /\ isFinalize e = false /\ ~ isFprintln e) /\
  (forall s sc rc a r, EvRunCompiledSuite s sc rc a r ∈ out ->
     rc = reporterConfig w /\ a = addl).
Proof.
  intros out. split; [|split].
  - by destruct (startup_frame W args addl w h) as (_ & ? & _).
  - intros e Hin.
    pose proof (startup_events W args addl w h e Hin) as He. cbn zeta in He.
    destruct e as [| | | | | | | | | | | |[]]; try done; by repeat split; try intros [].
  - intros s sc rc a r Hin.
    pose proof (startup_events W args addl w h _ Hin) as He. cbn zeta in He.
    by destruct He as (_ & -> & -> & _).
Qed.




End Watch.

(** X10.  The display mode that [computeSuccinctMode] decides for a
    positive number of suites does not depend on what an earlier call
    decided: only the last call counts. *)
Theorem computeSuccinctMode_last_call n m w h h' :
  1 <= m ->
  computeSuccinctMode m (final (computeSuccinctMode n) w h) h' = computeSuccinctMode m w h'.
Proof.
  intros Hm. rewrite computeSuccinctMode_final, !computeSuccinctMode_run.
  assert ((m =? 1) = false -> (1 <? m) = true) as Hmany.
  { intros H1%Z.eqb_neq. apply Z.ltb_lt. lia. }
  destruct (Verbose (reporterConfig w)) eqn:Hv, (WasSet (flags w) "succinct") eqn:Hx,
    (n =? 1), (1 <? n); cbn; rewrite ?Hv, ?Hx; try done;
    (destruct (m =? 1); [done|]); by rewrite Hmany.
Qed.

(** ** The further properties on concrete runs *)

Lemma WatchSpecs_pinned_seed_witness :
  WasSet (flags pinnedWatcher) "seed" = true /\
  suiteConfig (final (WatchSpecs calmWorld ["."] [] [TickerC; TickerC]) pinnedWatcher []) =
    {| RandomSeed := 7 |}.
Proof.
  split; [reflexivity|].
  exact (proj1 (WatchSpecs_pinned_seed calmWorld ["."] [] [TickerC; TickerC]
                  pinnedWatcher [] eq_refl)).
Defined.


Lemma computeSuccinctMode_last_call_witness :
  1 <= 1 /\
  computeSuccinctMode 1 (final (computeSuccinctMode 2) watcher0 []) [] =
    computeSuccinctMode 1 watcher0 [].
Proof.
  split; [lia|]. apply computeSuccinctMode_last_call. lia.
Defined.

Lemma runCycle_closing_line_witness :
  passedRuns (emitted (runCycle calmWorld [suiteA; suiteB] []) watcher0 []) = 2%nat /\
  (passedRuns (emitted (runCycle brokenWorld [suiteA; suiteB] []) watcher0 []) < 2)%nat.
Proof.
  split.
  - apply (proj1 (runCycle_closing_line calmWorld [suiteA; suiteB] [] watcher0 [])). here.
  - apply (proj1 (proj2 (runCycle_closing_line brokenWorld [suiteA; suiteB] [] watcher0 []))).
    here.
Defined.

Lemma onTick_finalizes_once_witness :
  exists pre msgs err,
    emitted (onTick calmWorld ["."] []) watcher0 [] =
      pre ++ EvFinalize [suiteA; suiteB] msgs err ::
      match err with Some _ => [] | None => EvOutput ∘ Println <$> msgs end /\
    attempted pre = [suiteA; suiteB] /\
    (forall e, e ∈ pre -> isFinalize e = false).
Proof.
  apply (proj2 (onTick_finalizes_once calmWorld ["."] [] watcher0 []));
    [discriminate | vm_compute; discriminate].
Defined.
